(** * TIRmite: hit indexing, candidate search, iterative pairing and the
      command-line driver

    The driver [main] is embedded from [src/tirmite/cmd_tirmite.py].  The
    functions it calls in the [tirmite] package (index construction,
    candidate search, the pairing engine, element extraction and the
    writers) are not part of the sources at hand; they are modelled from
    the written specification and marked as such. *)

From Stdlib Require Import List String Ascii ZArith QArith Lia Lqa Bool Arith
  PeanoNat Permutation DecimalString.
Import ListNotations.

Close Scope Q_scope.
Open Scope nat_scope.

(* ===================================================================== *)
(** ** Data model *)
(* ===================================================================== *)

(** Modelled from the spec: the strand of a hit (data model, section 3). *)
Inductive Strand := Plus | Minus.

(** Modelled from the spec: the source of a hit (data model, section 3). *)
Inductive Source := ProfileScan | ShortReadMap.

(** Modelled from the spec: the HitRecord of the data model (section 3).
    The numeric quality measure is the e-value, kept as an exact
    rational; lower is better. *)
Record HitRecord := mkHit {
  model : string;
  chromosome : string;
  hit_start : Z;
  hit_end : Z;
  strand : Strand;
  evalue : Q;
  source : Source
}.

(** Modelled from the spec: the pairing status of a hit in the index
    (section 3). *)
Inductive Status := unpaired | paired.

(** Modelled from the spec: one hit of the index with its identifier and
    its mutable pairing state (candidates, partner, status). *)
Record Entry := mkEntry {
  hid : nat;
  rec : HitRecord;
  candidates : list nat;
  partner : option nat;
  status : Status
}.

(** Modelled from the spec: the key (model, chromosome) of a group of the
    index. *)
Definition GroupKey := (string * string)%type.

(** Modelled from the spec: the ordered sequence of hits of one (model,
    chromosome) group. *)
Definition Group := list Entry.

(** Modelled from the spec: the HitIndex, a mapping from (model,
    chromosome) to the ordered sequence of its hits.  It is kept as an
    association list in order of first appearance. *)
Definition HitIndex := list (GroupKey * Group).

(** Modelled from the spec: a Pair is two hit ids and the derived span
    [min(starts), max(ends)) on their chromosome.  The five-prime arm is
    the hit that starts first. *)
Record Pair := mkPair {
  five_prime : nat;
  three_prime : nat;
  pair_chrom : string;
  span_start : Z;
  span_end : Z
}.

(** Modelled from the spec: the materialised element feature. *)
Record Element := mkElement {
  ele_chrom : string;
  ele_start : Z;
  ele_end : Z;
  ele_orient : list Strand;
  ele_model : string;
  ele_members : list nat;
  ele_num : nat
}.

(** Modelled from the spec: the error of the index builder (sections 4.1 and
    7); it names the index of the offending record. *)
Inductive Error := MalformedHitError (index : nat).

(* ===================================================================== *)
(** ** HitIndexBuilder *)
(* ===================================================================== *)

(** Modelled from the spec: the validation of [tirmite.table2dict] (section
    4.1), a record must have [start < end]; the strand is recognised by its
    type. *)
Definition well_formed (h : HitRecord) : bool := (hit_start h <? hit_end h)%Z.

(** Modelled from the spec: the group a hit belongs to
    ([tirmite.table2dict]). *)
Definition key_of (h : HitRecord) : GroupKey := (model h, chromosome h).

(** Modelled from the spec: equality of group keys ([tirmite.table2dict]). *)
Definition key_eqb (k1 k2 : GroupKey) : bool :=
  String.eqb (fst k1) (fst k2) && String.eqb (snd k1) (snd k2).

(** Modelled from the spec: the initial pairing state of a hit in
    [tirmite.table2dict]: no candidates, no partner, unpaired. *)
Definition fresh_entry (i : nat) (h : HitRecord) : Entry :=
  mkEntry i h [] None unpaired.

(** Modelled from the spec: appending a hit to its group in
    [tirmite.table2dict]; a new group is added at the end. *)
Fixpoint add_entry (k : GroupKey) (e : Entry) (idx : HitIndex) : HitIndex :=
  match idx with
  | [] => [(k, [e])]
  | (k', g) :: rest =>
      if key_eqb k k' then (k', g ++ [e]) :: rest
      else (k', g) :: add_entry k e rest
  end.

(** Modelled from the spec: the loop of [tirmite.table2dict] over the hit
    table, numbering hits from [next] in input order. *)
Fixpoint build_from (next : nat) (hits : list HitRecord) (idx : HitIndex)
  : Error + HitIndex :=
  match hits with
  | [] => inr idx
  | h :: rest =>
      if well_formed h
      then build_from (S next) rest (add_entry (key_of h) (fresh_entry next h) idx)
      else inl (MalformedHitError next)
  end.

(** Modelled from the spec: [tirmite.table2dict], the HitIndexBuilder of
    section 4.1.  Hits are numbered in input order, grouped by (model,
    chromosome) and start unpaired with no candidates; a record with
    [start >= end] is rejected and its index reported. *)
Definition table2dict (hits : list HitRecord) : Error + HitIndex :=
  build_from 0 hits [].

(* ===================================================================== *)
(** ** CandidateFinder *)
(* ===================================================================== *)

(** Modelled from the spec: the genomic gap between two hits (section 4.2),
    the distance between their nearer edges, 0 when they overlap. *)
Definition gap (h h' : HitRecord) : Z :=
  Z.max 0 (Z.max (hit_start h) (hit_start h') - Z.min (hit_end h) (hit_end h')).

(** Modelled from the spec: the strand test of [tirmite.parseHits]: the two
    arms of a TIR pair face each other. *)
Definition opposite (s s' : Strand) : bool :=
  match s, s' with
  | Plus, Minus | Minus, Plus => true
  | _, _ => false
  end.

(** Modelled from the spec: the distance test of [tirmite.parseHits]; an
    unset [maxDist] means no distance bound. *)
Definition within (maxDist : option Z) (h h' : HitRecord) : bool :=
  match maxDist with
  | None => true
  | Some d => (gap h h' <=? d)%Z
  end.

(** Modelled from the spec: the candidate rule of [tirmite.parseHits]
    (section 4.2): opposite strand, gap within [maxDist], different id. *)
Definition compatible (maxDist : option Z) (e e' : Entry) : bool :=
  opposite (strand (rec e)) (strand (rec e'))
  && within maxDist (rec e) (rec e')
  && negb (hid e =? hid e').

(** Modelled from the spec: the candidate set [tirmite.parseHits] computes
    for one hit within its group. *)
Definition find_candidates (maxDist : option Z) (g : Group) (e : Entry) : list nat :=
  map hid (filter (compatible maxDist e) g).

(** Modelled from the spec: the update of the [candidates] field in
    [tirmite.parseHits]. *)
Definition set_candidates (cs : list nat) (e : Entry) : Entry :=
  mkEntry (hid e) (rec e) cs (partner e) (status e).

(** Modelled from the spec: [tirmite.parseHits] on one group. *)
Definition parse_group (maxDist : option Z) (g : Group) : Group :=
  map (fun e => set_candidates (find_candidates maxDist g e) e) g.

(** Modelled from the spec: [tirmite.parseHits], the CandidateFinder of
    section 4.2.  Every hit receives the ids of the other hits of its
    group on the opposite strand whose gap is within [maxDist]; an unset
    [maxDist] imposes no bound. *)
Definition parseHits (idx : HitIndex) (maxDist : option Z) : HitIndex :=
  map (fun kg => (fst kg, parse_group maxDist (snd kg))) idx.

(* ===================================================================== *)
(** ** PairingEngine *)
(* ===================================================================== *)

(** Modelled from the spec: access to a hit of the group by id
    ([tirmite.iterateGetPairs]). *)
Definition lookup (g : Group) (i : nat) : option Entry :=
  find (fun e => hid e =? i) g.

(** Modelled from the spec: the status test of [tirmite.iterateGetPairs]. *)
Definition is_unpaired (e : Entry) : bool :=
  match status e with unpaired => true | paired => false end.

(** Modelled from the spec: the remaining-candidate view of a hit (section
    4.3), its candidates that are still unpaired. *)
Definition remaining (g : Group) (h : Entry) : list Entry :=
  flat_map (fun c => match lookup g c with
                     | Some ec => if is_unpaired ec then [ec] else []
                     | None => []
                     end) (candidates h).

(** Modelled from the spec: the ranking of step 1 of section 4.3.  [better h
    c1 c2]: seen from [h], candidate [c1] ranks strictly before [c2]: lower
    e-value first, then smaller gap to [h], then lower id. *)
Definition better (h c1 c2 : Entry) : bool :=
  match (evalue (rec c1) ?= evalue (rec c2))%Q with
  | Lt => true
  | Gt => false
  | Eq =>
      match (gap (rec h) (rec c1) ?= gap (rec h) (rec c2))%Z with
      | Lt => true
      | Gt => false
      | Eq => hid c1 <? hid c2
      end
  end.

(** Modelled from the spec: the top-ranked entry of a list of candidates
    under [better] (step 1 of section 4.3). *)
Fixpoint top_ranked (h : Entry) (cs : list Entry) : option Entry :=
  match cs with
  | [] => None
  | c :: cs' =>
      match top_ranked h cs' with
      | None => Some c
      | Some b => if better h c b then Some c else Some b
      end
  end.

(** Modelled from the spec: the best remaining candidate of a hit (step 1 of
    section 4.3). *)
Definition best (g : Group) (h : Entry) : option Entry :=
  top_ranked h (remaining g h).

(** Modelled from the spec: mutual-best matching (step 2 of section 4.3).
    The partner a currently unpaired hit gets in this round: its best
    remaining candidate, provided the hit is that candidate's best remaining
    candidate in turn. *)
Definition mutual_partner (g : Group) (h : Entry) : option nat :=
  if is_unpaired h then
    match best g h with
    | Some b =>
        match best g b with
        | Some h' => if hid h' =? hid h then Some (hid b) else None
        | None => None
        end
    | None => None
    end
  else None.

(** Modelled from the spec: committing a hit (step 3 of section 4.3): status
    paired, partner set. *)
Definition set_partner (p : nat) (e : Entry) : Entry :=
  mkEntry (hid e) (rec e) (candidates e) (Some p) paired.

(** Modelled from the spec: one round (step 3 of section 4.3): all
    mutually-best pairs are committed simultaneously. *)
Definition commit_round (g : Group) : Group :=
  map (fun e => match mutual_partner g e with
                | Some p => set_partner p e
                | None => e
                end) g.

(** Modelled from the spec: the hits that open a new pair in the next round,
    one per pair: the member with the lower id. *)
Definition anchors (g : Group) : list Entry :=
  filter (fun e => match mutual_partner g e with
                   | Some p => hid e <? p
                   | None => false
                   end) g.

(** Modelled from the spec: the number of new pairs the next round produces. *)
Definition new_pair_count (g : Group) : nat := List.length (anchors g).

(** Modelled from the spec: an unpaired hit with a non-empty
    remaining-candidate set (steps 5 and 6 of section 4.3). *)
Definition is_open (g : Group) (e : Entry) : bool :=
  is_unpaired e && match remaining g e with [] => false | _ => true end.

(** Modelled from the spec: some unpaired hit still has a non-empty
    remaining-candidate set. *)
Definition has_open (g : Group) : bool := existsb (is_open g) g.

(** Modelled from the spec: the loop state of one group, the group and the
    number of consecutive unproductive rounds so far. *)
Definition LoopState := (Group * nat)%type.

(** Modelled from the spec: the termination test of step 6 of section 4.3:
    no open hit is left, or [stableReps + 1] consecutive unproductive rounds
    have elapsed. *)
Definition halted (stableReps : Z) (s : LoopState) : bool :=
  negb (has_open (fst s)) || (stableReps + 1 <=? Z.of_nat (snd s))%Z.

(** Modelled from the spec: one round of the loop of
    [tirmite.iterateGetPairs] with the patience counter of step 5: an
    unproductive round counts up, a productive round commits its pairs and
    resets the counter. *)
Definition step (s : LoopState) : LoopState :=
  match new_pair_count (fst s) with
  | O => (fst s, S (snd s))
  | S _ => (commit_round (fst s), O)
  end.

(** Modelled from the spec: the loop of [tirmite.iterateGetPairs] on one
    group.  [fuel] bounds the number of rounds; [None] means it ran out. *)
Fixpoint pair_loop (fuel : nat) (stableReps : Z) (s : LoopState) : option LoopState :=
  match fuel with
  | O => None
  | S fuel' =>
      if halted stableReps s then Some s
      else pair_loop fuel' stableReps (step s)
  end.

(** Modelled from the spec: the number of consecutive unproductive rounds
    after which the loop stops, [stableReps + 1]. *)
Definition patience (stableReps : Z) : nat := Z.to_nat (stableReps + 1).

(** Modelled from the spec: a round budget for the loop of one group;
    [pair_loop_total] shows that it is never exhausted. *)
Definition loop_fuel (stableReps : Z) (g : Group) : nat :=
  S (List.length g) * S (patience stableReps).

(** Modelled from the spec: the pairing loop of [tirmite.iterateGetPairs] on
    one (model, chromosome) group. *)
Definition pair_group (stableReps : Z) (g : Group) : option Group :=
  match pair_loop (loop_fuel stableReps g) stableReps (g, O) with
  | Some s => Some (fst s)
  | None => None
  end.

(** Modelled from the spec: [tirmite.iterateGetPairs] runs the loop on every
    group of the index. *)
Fixpoint pair_groups (stableReps : Z) (idx : HitIndex) : option HitIndex :=
  match idx with
  | [] => Some []
  | (k, g) :: rest =>
      match pair_group stableReps g, pair_groups stableReps rest with
      | Some g', Some rest' => Some ((k, g') :: rest')
      | _, _ => None
      end
  end.

(** Modelled from the spec: the Pair of two hits (section 3): the five-prime
    arm is the hit that starts first, the span is [min(starts), max(ends)). *)
Definition make_pair (e e' : Entry) : Pair :=
  let lo := Z.min (hit_start (rec e)) (hit_start (rec e')) in
  let hi := Z.max (hit_end (rec e)) (hit_end (rec e')) in
  if (hit_start (rec e) <=? hit_start (rec e'))%Z
  then mkPair (hid e) (hid e') (chromosome (rec e)) lo hi
  else mkPair (hid e') (hid e) (chromosome (rec e)) lo hi.

(** Modelled from the spec: the pair a paired hit contributes to the paired
    set; it is listed once, by its member with the lower id. *)
Definition pair_from (g : Group) (e : Entry) : list Pair :=
  match partner e with
  | Some p =>
      if hid e <? p then
        match lookup g p with
        | Some e' => [make_pair e e']
        | None => []
        end
      else []
  | None => []
  end.

(** Modelled from the spec: the pairs of a resolved group. *)
Definition pairs_of (g : Group) : list Pair := flat_map (pair_from g) g.

(** Modelled from the spec: the ids a resolved group reports unpaired. *)
Definition unpaired_of (g : Group) : list nat :=
  map hid (filter is_unpaired g).

(** Modelled from the spec: the paired set [tirmite.iterateGetPairs]
    returns. *)
Definition all_pairs (idx : HitIndex) : list Pair :=
  flat_map (fun kg => pairs_of (snd kg)) idx.

(** Modelled from the spec: the unpaired set [tirmite.iterateGetPairs]
    returns. *)
Definition all_unpaired (idx : HitIndex) : list nat :=
  flat_map (fun kg => unpaired_of (snd kg)) idx.

(** Modelled from the spec: [tirmite.iterateGetPairs], the PairingEngine
    of section 4.3.  Each group is run to its fixed point; the result is
    the updated index, the pairs and the ids left unpaired.  [None] only
    if a loop ran out of fuel, which [pair_group_total] excludes. *)
Definition iterateGetPairs (idx : HitIndex) (stableReps : Z)
  : option (HitIndex * list Pair * list nat) :=
  match pair_groups stableReps idx with
  | Some idx' => Some (idx', all_pairs idx', all_unpaired idx')
  | None => None
  end.

(** Modelled from the spec: membership of a hit id in a Pair. *)
Definition has_member (i : nat) (p : Pair) : bool :=
  (five_prime p =? i) || (three_prime p =? i).

(* ===================================================================== *)
(** ** The pairing rules read as relations *)
(* ===================================================================== *)

(** Modelled from the spec: [b] is the top-ranked remaining candidate of [h]
    (step 1 of section 4.3). *)
Definition is_best (g : Group) (h b : Entry) : Prop :=
  In b (remaining g h) /\
  forall c, In c (remaining g h) -> hid c <> hid b -> better h b c = true.

(** Modelled from the spec: [h] is unpaired and [h] and [b] are each the
    other's best remaining choice (step 2 of section 4.3). *)
Definition mutually_best (g : Group) (h b : Entry) : Prop :=
  is_unpaired h = true /\ is_best g h b /\
  exists h', is_best g b h' /\ hid h' = hid h.

(** Modelled from the spec: what a round does to one hit (steps 2 and 3 of
    section 4.3): it gets its mutually-best partner, or stays as it is. *)
Inductive entry_round (g : Group) : Entry -> Entry -> Prop :=
| er_pair : forall e b,
    mutually_best g e b -> entry_round g e (set_partner (hid b) e)
| er_keep : forall e,
    (forall b, ~ mutually_best g e b) -> entry_round g e e.

(** Modelled from the spec: a round commits every mutually-best pair at once
    and touches nothing else (step 3 of section 4.3). *)
Definition round_rel (g g' : Group) : Prop := Forall2 (entry_round g) g g'.

(** Modelled from the spec: an unpaired hit with a non-empty
    remaining-candidate set. *)
Definition open_hit (g : Group) (e : Entry) : Prop :=
  is_unpaired e = true /\ remaining g e <> [].

(** Modelled from the spec: no unpaired hit has a non-empty
    remaining-candidate set (step 6 of section 4.3). *)
Definition resolved (g : Group) : Prop := forall e, In e g -> ~ open_hit g e.

(** Modelled from the spec: a pair the next round commits, named by its
    member with the lower id. *)
Definition new_pair (g : Group) (e b : Entry) : Prop :=
  In e g /\ mutually_best g e b /\ hid e < hid b.

(** Modelled from the spec: the next round produces zero new pairs (step 5
    of section 4.3). *)
Definition unproductive (g : Group) : Prop := forall e b, ~ new_pair g e b.

(** Modelled from the spec: the loop of steps 4 to 6 of section 4.3.
    [resolves R stale g final]: from group [g], after [stale] consecutive
    unproductive rounds, the loop ends in [final]. *)
Inductive resolves (stableReps : Z) : nat -> Group -> Group -> Prop :=
| rs_resolved : forall stale g,
    resolved g -> resolves stableReps stale g g
| rs_patience : forall stale g,
    ~ resolved g -> (stableReps + 1 <= Z.of_nat stale)%Z ->
    resolves stableReps stale g g
| rs_stale : forall stale g final,
    ~ resolved g -> (Z.of_nat stale < stableReps + 1)%Z ->
    unproductive g ->
    resolves stableReps (S stale) g final ->
    resolves stableReps stale g final
| rs_pair : forall stale g g' final,
    ~ resolved g -> (Z.of_nat stale < stableReps + 1)%Z ->
    ~ unproductive g ->
    round_rel g g' ->
    resolves stableReps O g' final ->
    resolves stableReps stale g final.

(** Modelled from the spec: every group of the index is run to its fixed
    point. *)
Definition index_resolves (stableReps : Z) (idx idx' : HitIndex) : Prop :=
  Forall2 (fun kg kg' => fst kg = fst kg' /\
                         resolves stableReps O (snd kg) (snd kg')) idx idx'.

(* ===================================================================== *)
(** ** ElementExtractor and output naming *)
(* ===================================================================== *)

(** Modelled from the spec: all hits of the index. *)
Definition all_entries (idx : HitIndex) : list Entry := flat_map snd idx.

(** Modelled from the spec: access to a hit of the index by id
    ([tirmite.fetchElements]). *)
Definition hit_of (idx : HitIndex) (i : nat) : option Entry :=
  lookup (all_entries idx) i.

(** Modelled from the spec: the order of element numbering, chromosome then
    position (section 4.4). *)
Definition pair_before (p q : Pair) : bool :=
  match String.compare (pair_chrom p) (pair_chrom q) with
  | Lt => true
  | Gt => false
  | Eq => (span_start p <=? span_start q)%Z
  end.

(** Modelled from the spec: insertion into a list of pairs ordered by
    [pair_before]. *)
Fixpoint insert_pair (p : Pair) (l : list Pair) : list Pair :=
  match l with
  | [] => [p]
  | q :: l' => if pair_before p q then p :: q :: l' else q :: insert_pair p l'
  end.

(** Modelled from the spec: the chromosome/position order in which
    [tirmite.fetchElements] numbers the elements. *)
Definition sort_pairs (l : list Pair) : list Pair := fold_right insert_pair [] l.

(** Modelled from the spec: the element feature of one pair with counter
    [n]: chromosome, merged span, strand orientation and model of its arms,
    member ids. *)
Definition element_of (idx : HitIndex) (n : nat) (p : Pair) : option Element :=
  match hit_of idx (five_prime p), hit_of idx (three_prime p) with
  | Some a, Some b =>
      Some (mkElement (pair_chrom p) (span_start p) (span_end p)
              [strand (rec a); strand (rec b)] (model (rec a))
              [five_prime p; three_prime p] n)
  | _, _ => None
  end.

(** Modelled from the spec: sequential numbering of the element features
    from [n]. *)
Fixpoint number_from (idx : HitIndex) (n : nat) (ps : list Pair) : list Element :=
  match ps with
  | [] => []
  | p :: ps' =>
      match element_of idx n p with
      | Some el => el :: number_from idx (S n) ps'
      | None => number_from idx n ps'
      end
  end.

(** Modelled from the spec: [tirmite.fetchElements], the ElementExtractor
    of section 4.4 for pairs: one element per pair, numbered from 1 in
    chromosome/position order. *)
Definition fetchElements (pairs : list Pair) (idx : HitIndex) : list Element :=
  number_from idx 1 (sort_pairs pairs).

(** Modelled from the spec: the single-hit feature of an unpaired hit; it
    has no sequential number. *)
Definition single_feature (e : Entry) : Element :=
  mkElement (chromosome (rec e)) (hit_start (rec e)) (hit_end (rec e))
    [strand (rec e)] (model (rec e)) [hid e] 0.

(** Modelled from the spec: [tirmite.fetchUnpaired], one single-hit
    feature per leftover hit. *)
Definition fetchUnpaired (idx : HitIndex) : list Element :=
  map single_feature (filter is_unpaired (all_entries idx)).

(** Modelled from the spec: the decimal rendering of the counter in an
    element name. *)
Definition decimal (n : nat) : string := NilEmpty.string_of_uint (Nat.to_uint n).

(** Modelled from the spec: the sequential identifier of an element
    feature, prefix followed by counter. *)
Definition ele_name (pfx : option string) (el : Element) : string :=
  match pfx with
  | Some p => (p ++ decimal (ele_num el))%string
  | None => decimal (ele_num el)
  end.


(** Modelled from the spec: what one run of the engine hands to the
    serializers (section 6). *)
Record EngineOutput := mkOutput {
  out_paired : list Pair;
  out_unpaired : list nat;
  out_names : list string
}.

(** Modelled from the spec: the pairs, unpaired ids and element names of a
    resolved index. *)
Definition output_of (pfx : option string) (idx : HitIndex) : EngineOutput :=
  mkOutput (all_pairs idx) (all_unpaired idx)
    (map (ele_name pfx) (fetchElements (all_pairs idx) idx)).

(** Modelled from the spec: index construction, candidate search and the
    pairing engine in sequence, as relations. *)
Definition engine_run (maxDist : option Z) (stableReps : Z) (pfx : option string)
  (hits : list HitRecord) (out : EngineOutput) : Prop :=
  exists idx idx',
    table2dict hits = inr idx /\
    index_resolves stableReps (parseHits idx maxDist) idx' /\
    out = output_of pfx idx'.

(* ===================================================================== *)
(** ** The command-line driver [main] *)
(* ===================================================================== *)

Inductive ReportMode := ReportAll | ReportPaired | ReportUnpaired.

(** The namespace returned by [mainArgs]. *)
Record Args := mkArgs {
  genome : string;
  hmmDir : option string;
  hmmFile : option string;
  alnDir : option string;
  alnFile : option string;
  alnFormat : string;
  useBowtie2 : bool;
  btTIR : option string;
  bowtie2 : string;
  bt2build : string;
  samtools : string;
  bedtools : string;
  stableReps : Z;
  outdir : option string;
  prefix : option string;
  nopairing : bool;
  gffOut : option string;
  reportTIR : option ReportMode;
  keeptemp : bool;
  verbose : bool;
  cores : Z;
  maxeval : Q;
  maxdist : option Z;
  nobias : bool;
  matrix : option string;
  hmmpress : string;
  nhmmer : string;
  hmmbuild : string
}.

(** What the run finds outside the program: the PATH, and what the
    collaborators of the [tirmite] package return.  The collaborators
    that prepare, search and import ([dochecks], [importFasta],
    [isfile], [convertAlign], [run_cmd], [import_nhmmer],
    [import_mapped]) are taken to return normally. *)
Record World := mkWorld {
  on_path : string -> bool;
  checked_outDir : string;
  checked_tempDir : string;
  bt_name : string;
  mapped_path : string;
  stockholm_dir : string;
  result_dir : string;
  tab_files : list string;
  nhmmer_rows : string -> option string -> list HitRecord;
  mapped_rows : string -> string -> option string -> list HitRecord
}.

(** The commands composed by [tirmite._bowtie2build_cmd],
    [tirmite._bowtie2_cmd], [tirmite._bam2bed_cmd] and [tirmite.cmdScript],
    kept as the arguments [main] passes to them. *)
Inductive Command :=
| Bowtie2Build (bt2Path genomePath : string)
| Bowtie2 (bt2Path : string) (tirFasta : option string) (nCores : Z)
| Bam2Bed (samPath bedPath tempDir : string)
| HmmerScript (hmmDirArg hmmFileArg alnDirArg : option string)
    (tempDir : string) (args : Args).

(** The calls [main] makes, with the arguments it passes. *)
Inductive Event :=
| EvPrint (text : string)
| EvDoChecks (args : Args)
| EvImportFasta (path : string)
| EvIsFile (path : option string)
| EvConvertAlign (alnDirArg alnFileArg : option string) (inFormat tempDir : string)
| EvRunCmd (cmds : list Command) (verboseArg keeptempArg : bool)
| EvTable2dict (hitTable : list HitRecord)
| EvParseHits (maxDistArg : option Z)
| EvIterateGetPairs (stableRepsArg : Z)
| EvFetchElements (pairs : list Pair)
| EvFetchUnpaired
| EvWriteTIRs (outDir : string) (hitTable : list HitRecord) (maxevalArg : Q)
    (prefixArg : option string)
| EvWriteElements (outDir : string) (eleDict : list Element)
    (prefixArg : option string)
| EvGffWrite (outpath : string) (featureList : list Element)
    (writeTIRs : option ReportMode) (unpairedArg : option (list Element))
    (suppressMeta : bool) (prefixArg : option string)
| EvRmTree (dir : string).

(** How a run ends: [main] returns, [sys.exit] is called, the index
    builder raises, or the pairing loop runs out of fuel. *)
Inductive Outcome :=
| Returned
| Exited (code : Z)
| Raised (e : Error)
| OutOfFuel.

(** Effects of the driver: a log of the calls made, and either a value or
    the way the run ended early. *)
Definition Run (A : Type) : Type := (list Event * (A + Outcome))%type.

(** A computation that only returns [x]. *)
Definition ret {A : Type} (x : A) : Run A := ([], inl x).

(** Sequencing: the log is extended, an early end skips the rest. *)
Definition bind {A B : Type} (m : Run A) (k : A -> Run B) : Run B :=
  match m with
  | (t, inl x) => (t ++ fst (k x), snd (k x))
  | (t, inr o) => (t, inr o)
  end.

(** Log one call. *)
Definition emit (ev : Event) : Run unit := ([ev], inl tt).

(** End the run here. *)
Definition stop {A : Type} (o : Outcome) : Run A := ([], inr o).

(** [sys.exit(code)]. *)
Definition sys_exit {A : Type} (code : Z) : Run A := stop (Exited code).

(** [if b: m]. *)
Definition when (b : bool) (m : Run unit) : Run unit := if b then m else ret tt.

Declare Scope run_scope.
Delimit Scope run_scope with run.
Notation "x <- m ;; k" := (bind m (fun x => k))
  (at level 61, m at next level, right associativity) : run_scope.
Notation "m ;; k" := (bind m (fun _ => k))
  (at level 61, right associativity) : run_scope.

(** The calls of a run, in order. *)
Definition trace (r : Run unit) : list Event := fst r.

(** How the run ended. *)
Definition outcome (r : Run unit) : Outcome :=
  match snd r with
  | inl _ => Returned
  | inr o => o
  end.

(** Python truthiness of an optional string and of a list. *)
Definition truthy (s : option string) : bool :=
  match s with
  | Some EmptyString | None => false
  | Some _ => true
  end.

(** Python truthiness of a list. *)
Definition nonempty {A : Type} (l : list A) : bool :=
  match l with [] => false | _ => true end.

(** [s.endswith('/')]. *)
Fixpoint ends_with_sep (s : string) : bool :=
  match s with
  | EmptyString => false
  | String c EmptyString => Ascii.eqb c "/"%char
  | String _ s' => ends_with_sep s'
  end.

(** [os.path.join] on two components. *)
Definition path_join (a b : string) : string :=
  match b with
  | String "/"%char _ => b
  | _ => match a with
         | EmptyString => b
         | _ => if ends_with_sep a then (a ++ b)%string
                else (a ++ "/" ++ b)%string
         end
  end.

(** [missing_tool] of cmd_tirmite.py: [shutil.which] finds the tool
    or it is reported. *)
Definition missing_tool (w : World) (tool_name : string) : list string :=
  if on_path w tool_name then [] else [tool_name].

(** Line 65: the seven required programs. *)
Definition required_tools (args : Args) : list string :=
  [hmmpress args; nhmmer args; hmmbuild args; bowtie2 args; bt2build args;
   samtools args; bedtools args].

(** Lines 66-68: the missing tools, accumulated in order. *)
Definition missing_tools (args : Args) (w : World) : list string :=
  fold_left (fun acc tool => acc ++ missing_tool w tool) (required_tools args) [].

(** Line 144: [args.reportTIR in ['all','unpaired']]. *)
Definition report_unpaired (m : option ReportMode) : bool :=
  match m with
  | Some ReportAll | Some ReportUnpaired => true
  | _ => false
  end.

(** Lines 111-113: the hit table grows by the rows of every result
    file. *)
Definition import_all (args : Args) (w : World) : list HitRecord :=
  fold_left (fun hitTable resultfile =>
               hitTable ++ nhmmer_rows w resultfile (prefix args))
            (tab_files w) [].

Open Scope run_scope.

(** Lines 80-113: the search step, ending with the hit table. *)
Definition search (args : Args) (w : World) : Run (list HitRecord) :=
  let tempDir := checked_tempDir w in
  if useBowtie2 args then
    emit (EvIsFile (btTIR args)) ;;
    emit (EvRunCmd ([Bowtie2Build (bt2build args) (genome args);
                     Bowtie2 (bowtie2 args) (btTIR args) (cores args)]
                    ++ [Bam2Bed (samtools args) (bedtools args) tempDir])
                   (verbose args) (keeptemp args)) ;;
    ret (mapped_rows w (mapped_path w) (bt_name w) (prefix args))
  else
    stockholmDir <-
      (if truthy (alnDir args) || truthy (alnFile args)
       then emit (EvConvertAlign (alnDir args) (alnFile args) (alnFormat args) tempDir) ;;
            ret (Some (stockholm_dir w))
       else ret None) ;;
    emit (EvRunCmd [HmmerScript (hmmDir args) (hmmFile args) stockholmDir tempDir args]
                   (verbose args) (keeptemp args)) ;;
    (if nonempty (tab_files w) then ret tt
     else emit (EvPrint ("No hits found in " ++ result_dir w ++ " . Quitting.")) ;;
          sys_exit 1%Z) ;;
    ret (import_all args w).

(** Lines 126-130: candidate search and the pairing loop. *)
Definition run_pairing (args : Args) (idx : HitIndex)
  : option (HitIndex * list Pair * list nat) :=
  iterateGetPairs (parseHits idx (maxdist args)) (stableReps args).

(** Lines 64-72: the check for required programs. *)
Definition check_tools (args : Args) (w : World) : Run unit :=
  when (nonempty (missing_tools args w))
    (emit (EvPrint ("WARNING: Some tools required by tirmite could not be found: "
                    ++ String.concat ", " (missing_tools args w))) ;;
     emit (EvPrint "You may need to install them to use all features.")).

(** Lines 118-124: with pairing off, only the hits are reported. *)
Definition report_hits_only (args : Args) (w : World) (hitTable : list HitRecord)
  : Run unit :=
  emit (EvWriteTIRs (checked_outDir w) hitTable (maxeval args) None) ;;
  when (negb (keeptemp args)) (emit (EvRmTree (checked_tempDir w))) ;;
  sys_exit 1%Z.

(** Lines 126-154: pairing, extraction, output and clean-up. *)
Definition annotate (args : Args) (w : World) (hitTable : list HitRecord)
  (hitIndex : HitIndex) : Run unit :=
  let outDir := checked_outDir w in
  emit (EvParseHits (maxdist args)) ;;
  emit (EvIterateGetPairs (stableReps args)) ;;
  res <- match run_pairing args hitIndex with
         | Some r => ret r
         | None => stop OutOfFuel
         end ;;
  let '(hitIndex', pairs, _) := res in
  emit (EvWriteTIRs outDir hitTable (maxeval args) (prefix args)) ;;
  emit (EvFetchElements pairs) ;;
  let pairedEles := fetchElements pairs hitIndex' in
  emit (EvWriteElements outDir pairedEles (prefix args)) ;;
  when (truthy (gffOut args))
    (unpairedTIRs <-
       (if report_unpaired (reportTIR args)
        then emit EvFetchUnpaired ;; ret (Some (fetchUnpaired hitIndex'))
        else ret None) ;;
     emit (EvGffWrite (path_join outDir (match gffOut args with
                                         | Some f => f
                                         | None => EmptyString
                                         end))
             pairedEles (reportTIR args) unpairedTIRs (useBowtie2 args)
             (prefix args))) ;;
  when (negb (keeptemp args)) (emit (EvRmTree (checked_tempDir w))).

(** [main] of cmd_tirmite.py, run on parsed arguments. *)
Definition main (args : Args) (w : World) : Run unit :=
  check_tools args w ;;
  emit (EvDoChecks args) ;;
  emit (EvImportFasta (genome args)) ;;
  hitTable <- search args w ;;
  emit (EvTable2dict hitTable) ;;
  hitIndex <- match table2dict hitTable with
              | inr idx => ret idx
              | inl e => stop (Raised e)
              end ;;
  (if nopairing args then report_hits_only args w hitTable else ret tt) ;;
  annotate args w hitTable hitIndex.

Close Scope run_scope.

(* ===================================================================== *)
(** ** Vocabulary of the statements *)
(* ===================================================================== *)

Definition ids (g : Group) : list nat := map hid g.

(** The number of unpaired hits of a group. *)
Definition ucount (g : Group) : nat := List.length (filter is_unpaired g).

(** The loop state after [n] rounds. *)
Fixpoint rounds (n : nat) (s : LoopState) : LoopState :=
  match n with
  | O => s
  | S k => rounds k (step s)
  end.

(** The loop state of group [g] after [n] rounds from the start. *)
Definition state_after (n : nat) (g : Group) : LoopState := rounds n (g, O).

(** The [stableReps + 1] rounds before round [n] each produced zero new
    pairs. *)
Definition stale_rounds (stableReps : Z) (n : nat) (g : Group) : Prop :=
  (stableReps + 1 <= Z.of_nat n)%Z /\
  forall j, n - patience stableReps <= j -> j < n ->
            new_pair_count (fst (state_after j g)) = 0.

(** The number of pairs that have [i] as a member. *)
Definition pair_count (i : nat) (ps : list Pair) : nat :=
  List.length (filter (has_member i) ps).

(** The hit id [i] is a member of exactly one pair and not unpaired, or
    of no pair and listed once as unpaired. *)
Definition in_one_set (i : nat) (ps : list Pair) (us : list nat) : Prop :=
  (pair_count i ps = 1 /\ count_occ Nat.eq_dec us i = 0) \/
  (pair_count i ps = 0 /\ count_occ Nat.eq_dec us i = 1).

(** Index construction, candidate search and pairing in sequence. *)
Definition run_engine (maxDist : option Z) (stableReps : Z) (hits : list HitRecord)
  : Error + option (HitIndex * list Pair * list nat) :=
  match table2dict hits with
  | inl e => inl e
  | inr idx => inr (iterateGetPairs (parseHits idx maxDist) stableReps)
  end.

(** The pairing state of [e] is coherent within [g]: a partner is a
    candidate other than [e] itself whose own partner is [e]. *)
Definition paired_ok (g : Group) (e : Entry) : Prop :=
  match partner e with
  | Some p =>
      status e = paired /\ p <> hid e /\ In p (candidates e) /\
      exists e', In e' g /\ hid e' = p /\ partner e' = Some (hid e)
  | None => status e = unpaired
  end.

(** The invariant of a group: ids are unique, no hit is its own
    candidate, the pairing state is coherent. *)
Definition group_inv (g : Group) : Prop :=
  NoDup (ids g) /\
  (forall e, In e g -> ~ In (hid e) (candidates e)) /\
  (forall e, In e g -> paired_ok g e).

(** The pairing state the index builder gives every hit. *)
Definition is_fresh (e : Entry) : Prop :=
  candidates e = [] /\ partner e = None /\ status e = unpaired.

(** The invariant of the index: ids are unique across groups and
    every group is coherent. *)
Definition index_inv (idx : HitIndex) : Prop :=
  NoDup (ids (all_entries idx)) /\
  forall kg, In kg idx -> group_inv (snd kg).

(** What the engine never changes of a hit: id, record, candidates. *)
Definition core (e : Entry) : nat * HitRecord * list nat :=
  (hid e, rec e, candidates e).

(** Every candidate listed in the group lies within distance [D]. *)
Definition within_bound (D : Z) (cs : list (nat * HitRecord * list nat)) : Prop :=
  forall i h c i' h' c',
    In (i, h, c) cs -> In (i', h', c') cs -> In i' c -> (gap h h' <= D)%Z.

(** Every entry carries the input record at the position of its id. *)
Definition from_input (hits : list HitRecord)
  (cs : list (nat * HitRecord * list nat)) : Prop :=
  forall i h c, In (i, h, c) cs -> nth_error hits i = Some h.

(** Two opposite-strand hits of one group whose spans are [d] apart. *)
Definition far_apart (d : Z) : list HitRecord :=
  [mkHit "tir" "chr1" 0 10 Plus (1 # 1000) ProfileScan;
   mkHit "tir" "chr1" (10 + d) (20 + d) Minus (1 # 1000) ProfileScan].

(** *** The driver: vocabulary *)

(** The hit table the search step hands on when it finds hits. *)
Definition hit_table (args : Args) (w : World) : list HitRecord :=
  if useBowtie2 args
  then mapped_rows w (mapped_path w) (bt_name w) (prefix args)
  else import_all args w.

(** The run gets past the search step: bowtie2 mode, or some [.tab]
    result file exists. *)
Definition hits_found (args : Args) (w : World) : bool :=
  useBowtie2 args || nonempty (tab_files w).

(** The call [shutil.rmtree]. *)
Definition is_rmtree (ev : Event) : bool :=
  match ev with EvRmTree _ => true | _ => false end.

(** The run removes the temporary directory. *)
Definition removes_temp (r : Run unit) : bool := existsb is_rmtree (trace r).

(** Calls of the pairing, element-extraction and GFF-writing steps. *)
Definition is_pairing_stage (ev : Event) : bool :=
  match ev with
  | EvParseHits _ | EvIterateGetPairs _ | EvFetchElements _ | EvFetchUnpaired
  | EvWriteElements _ _ _ | EvGffWrite _ _ _ _ _ _ => true
  | _ => false
  end.

(** Calls of the three writers. *)
Definition is_output (ev : Event) : bool :=
  match ev with
  | EvWriteTIRs _ _ _ _ | EvWriteElements _ _ _ | EvGffWrite _ _ _ _ _ _ => true
  | _ => false
  end.

(** The prefix a writer call receives, if the event is a writer call. *)
Definition writer_prefix (ev : Event) : option (option string) :=
  match ev with
  | EvWriteTIRs _ _ _ p => Some p
  | EvWriteElements _ _ p => Some p
  | EvGffWrite _ _ _ _ _ p => Some p
  | _ => None
  end.

(** A process exit that reports success: falling off the end of [main],
    or exit status 0. *)
Definition clean_exit (o : Outcome) : Prop := o = Returned \/ o = Exited 0%Z.


(** The same world with another PATH. *)
Definition with_path (f : string -> bool) (w : World) : World :=
  mkWorld f (checked_outDir w) (checked_tempDir w) (bt_name w) (mapped_path w)
    (stockholm_dir w) (result_dir w) (tab_files w) (nhmmer_rows w)
    (mapped_rows w).

(** The warning of lines 69-72 for a list of missing tools. *)
Definition tool_warning (missing : list string) : list Event :=
  match missing with
  | [] => []
  | _ => [EvPrint ("WARNING: Some tools required by tirmite could not be found: "
                   ++ String.concat ", " missing);
          EvPrint "You may need to install them to use all features."]
  end.

(** *** Sample runs *)

(** The defaults of [mainArgs] for a given genome and model file. *)
Definition default_args (genomePath hmm : string) : Args :=
  mkArgs genomePath None (Some hmm) None None "fasta"
    false None "bowtie2" "bowtie2-build" "samtools" "bedtools"
    0%Z None None false None (Some ReportAll)
    false false 1%Z (1 # 1000) None false None
    "hmmpress" "nhmmer" "hmmbuild".

(** The defaults for genome.fa and tir.hmm. *)
Definition sample_args : Args := default_args "genome.fa" "tir.hmm".

(** Three hits of one model on chr1 and one on chr2; hits 1 and 2
    have e-values above the default threshold 0.001. *)
Definition sample_hits : list HitRecord :=
  [mkHit "tir" "chr1" 100 130 Plus (1 # 100000) ProfileScan;
   mkHit "tir" "chr1" 400 430 Minus (1 # 2) ProfileScan;
   mkHit "tir" "chr1" 900 930 Minus (1 # 100) ProfileScan;
   mkHit "tir" "chr2" 50 80 Plus (1 # 100000) ProfileScan].

(** A world with every tool on PATH whose search step yields
    [sample_hits] from the result files [tabs]. *)
Definition sample_world (tabs : list string) : World :=
  mkWorld (fun _ => true) "out" "out/temp" "tir" "out/temp/mapped.bed"
    "out/temp/stockholm" "out/temp/nhmmer" tabs
    (fun _ _ => sample_hits) (fun _ _ _ => sample_hits).

(** One result file. *)
Definition world_with_hits : World := sample_world ["out/temp/nhmmer/tir.tab"%string].

(** No result file. *)
Definition world_without_hits : World := sample_world [].

(** bowtie2 and samtools are not on PATH. *)
Definition world_missing_tools : World :=
  with_path (fun t => negb (String.eqb t "bowtie2" || String.eqb t "samtools"))
    world_with_hits.

(** [--nopairing] with an optional [--prefix] and [--keeptemp]. *)
Definition args_nopairing (pfx : option string) (keep : bool) : Args :=
  mkArgs "genome.fa" None (Some "tir.hmm"%string) None None "fasta"
    false None "bowtie2" "bowtie2-build" "samtools" "bedtools"
    0%Z None pfx true None (Some ReportAll)
    keep false 1%Z (1 # 1000) None false None
    "hmmpress" "nhmmer" "hmmbuild".

(** [--gffOut tirs.gff3] with an optional [--prefix]. *)
Definition args_gff (pfx : option string) : Args :=
  mkArgs "genome.fa" None (Some "tir.hmm"%string) None None "fasta"
    false None "bowtie2" "bowtie2-build" "samtools" "bedtools"
    0%Z None pfx false (Some "tirs.gff3"%string) (Some ReportAll)
    false false 1%Z (1 # 1000) None false None
    "hmmpress" "nhmmer" "hmmbuild".

(** Calls and messages of the search step. *)
Definition is_search_event (ev : Event) : bool :=
  match ev with
  | EvIsFile _ | EvConvertAlign _ _ _ _ | EvRunCmd _ _ _ | EvPrint _ => true
  | _ => false
  end.

(** Everything [main] logs up to the end of the search step. *)
Definition prelude (args : Args) (w : World) : list Event :=
  tool_warning (missing_tools args w)
  ++ [EvDoChecks args; EvImportFasta (genome args)]
  ++ fst (search args w).

(** Lines 141-150: the GFF3 step. *)
Definition gff_events (args : Args) (w : World) (idx : HitIndex)
  (pairs : list Pair) : list Event :=
  if truthy (gffOut args) then
    (if report_unpaired (reportTIR args) then [EvFetchUnpaired] else [])
    ++ [EvGffWrite (path_join (checked_outDir w)
                      (match gffOut args with
                       | Some f => f
                       | None => EmptyString
                       end))
          (fetchElements pairs idx) (reportTIR args)
          (if report_unpaired (reportTIR args)
           then Some (fetchUnpaired idx) else None)
          (useBowtie2 args) (prefix args)]
  else [].

(** Lines 152-154 and 121-123: the temp directory is removed unless
    [--keeptemp]. *)
Definition cleanup (args : Args) (w : World) : list Event :=
  if keeptemp args then [] else [EvRmTree (checked_tempDir w)].

(** Calls made before the hit index is built. *)
Definition is_setup (ev : Event) : bool :=
  match ev with
  | EvDoChecks _ | EvImportFasta _ => true
  | _ => is_search_event ev
  end.


(** The same world with every tool on PATH. *)
Definition all_on_path (w : World) : World := with_path (fun _ => true) w.

(** The prefixes the writer calls of a run receive, in order. *)
Definition writer_prefixes (t : list Event) : list (option string) :=
  flat_map (fun ev => match writer_prefix ev with
                      | Some p => [p]
                      | None => []
                      end) t.

(** The index built from [sample_hits]. *)
Definition sample_index : HitIndex :=
  match table2dict sample_hits with
  | inr idx => idx
  | inl _ => []
  end.

(** The chr1 group of the sample after candidate search within 1000
    bases. *)
Definition sample_group : Group :=
  match parseHits sample_index (Some 1000%Z) with
  | (_, g) :: _ => g
  | [] => []
  end.

(** The index after pairing the sample with the default arguments. *)
Definition sample_final : HitIndex :=
  match run_pairing (args_gff None) sample_index with
  | Some (idx', _, _) => idx'
  | None => []
  end.

(** The pair of hits 0 and 2 of the sample. *)
Definition sample_pair : Pair := mkPair 0 2 "chr1" 100 930.

(** *** The scenarios of the specification *)

(** A hit of model "tir" on chr1 with e-value [q]. *)
Definition hit_at (s e : Z) (st : Strand) (q : Q) : HitRecord :=
  mkHit "tir" "chr1" s e st q ProfileScan.

(** The pairs and unpaired ids of a run of the engine. *)
Definition partition_of (r : Error + option (HitIndex * list Pair * list nat))
  : option (list Pair * list nat) :=
  match r with
  | inr (Some (_, pairs, leftover)) => Some (pairs, leftover)
  | _ => None
  end.

(** *** Further vocabulary of the driver *)

(** The call [tirmite.run_cmd]. *)
Definition is_run_cmd (ev : Event) : bool :=
  match ev with EvRunCmd _ _ _ => true | _ => false end.

(** The call [tirmite.convertAlign]. *)
Definition is_convert (ev : Event) : bool :=
  match ev with EvConvertAlign _ _ _ _ => true | _ => false end.

(** The call [tirmite.isfile]. *)
Definition is_isfile (ev : Event) : bool :=
  match ev with EvIsFile _ => true | _ => false end.

(** The call [tirmite.fetchUnpaired]. *)
Definition is_fetch_unpaired (ev : Event) : bool :=
  match ev with EvFetchUnpaired => true | _ => false end.

(** The call [tirmite.gffWrite]. *)
Definition is_gff (ev : Event) : bool :=
  match ev with EvGffWrite _ _ _ _ _ _ => true | _ => false end.

(** The calls [tirmite.parseHits] and [tirmite.iterateGetPairs]. *)
Definition is_engine_call (ev : Event) : bool :=
  match ev with EvParseHits _ | EvIterateGetPairs _ => true | _ => false end.

(** Calls made from line 116 on, once the search step is over. *)
Definition is_late (ev : Event) : bool :=
  match ev with
  | EvTable2dict _ | EvParseHits _ | EvIterateGetPairs _ | EvWriteTIRs _ _ _ _
  | EvFetchElements _ | EvWriteElements _ _ _ | EvFetchUnpaired
  | EvGffWrite _ _ _ _ _ _ | EvRmTree _ => true
  | _ => false
  end.

(** Line 107: the message of the no-hits exit. *)
Definition no_hits_message (w : World) : string :=
  ("No hits found in " ++ result_dir w ++ " . Quitting.")%string.

(** Lines 96-99: raw alignments are converted, in HMM mode only. *)
Definition converts (args : Args) : bool :=
  negb (useBowtie2 args) && (truthy (alnDir args) || truthy (alnFile args)).

(** Lines 85-89 and 102: the commands handed to [tirmite.run_cmd]. *)
Definition search_commands (args : Args) (w : World) : list Command :=
  if useBowtie2 args then
    [Bowtie2Build (bt2build args) (genome args);
     Bowtie2 (bowtie2 args) (btTIR args) (cores args);
     Bam2Bed (samtools args) (bedtools args) (checked_tempDir w)]
  else
    [HmmerScript (hmmDir args) (hmmFile args)
       (if converts args then Some (stockholm_dir w) else None)
       (checked_tempDir w) args].

(** [s.startswith('/')]. *)
Definition is_abs (s : string) : bool :=
  match s with
  | String c _ => Ascii.eqb c "/"%char
  | EmptyString => false
  end.

(** Line 150: the file the GFF3 writer is given. *)
Definition gff_path (args : Args) (w : World) : string :=
  path_join (checked_outDir w)
    (match gffOut args with Some f => f | None => EmptyString end).

(** Line 150: the call of the GFF3 writer on a resolved index. *)
Definition gff_call (args : Args) (w : World) (idx : HitIndex)
  (pairs : list Pair) : Event :=
  EvGffWrite (gff_path args w) (fetchElements pairs idx) (reportTIR args)
    (if report_unpaired (reportTIR args) then Some (fetchUnpaired idx) else None)
    (useBowtie2 args) (prefix args).

(** The index builder accepts the hit table. *)
Definition table_accepted (args : Args) (w : World) : bool :=
  match table2dict (hit_table args w) with inr _ => true | inl _ => false end.

(** The run gets to the end of [main]. *)
Definition completes (args : Args) (w : World) : bool :=
  hits_found args w && table_accepted args w && negb (nopairing args).

(** A world whose one result file holds no hit. *)
Definition world_with_empty_results : World :=
  mkWorld (fun _ => true) "out" "out/temp" "tir" "out/temp/mapped.bed"
    "out/temp/stockholm" "out/temp/nhmmer" ["out/temp/nhmmer/tir.tab"%string]
    (fun _ _ => []) (fun _ _ _ => []).

(** Bowtie2 mode with alignments and a GFF3 file also given. *)
Definition args_bowtie : Args :=
  mkArgs "genome.fa" None None (Some "aln"%string) None "fasta"
    true (Some "tir.fa"%string) "bowtie2" "bowtie2-build" "samtools" "bedtools"
    0%Z None None false (Some "/data/tirs.gff3"%string) (Some ReportPaired)
    true false 4%Z (1 # 1000) None false None
    "hmmpress" "nhmmer" "hmmbuild".




(** Closes the cases of a three-level comparison. *)
Ltac order_cases :=
  intros;
  repeat match goal with
         | H : false = true |- _ => discriminate H
         | H : (_ <? _) = true |- _ => apply Nat.ltb_lt in H
         | |- (_ <? _) = true => apply Nat.ltb_lt
         | |- true = true => reflexivity
         end;
  try lra; try lia.

(* ===================================================================== *)
(** * Properties *)
(* ===================================================================== *)

(** ** Lookup and the remaining-candidate view *)

Lemma lookup_some g i e : lookup g i = Some e -> In e g /\ hid e = i.
Proof.
  unfold lookup. intros H. apply find_some in H.
  destruct H as [Hin Heq]. apply Nat.eqb_eq in Heq. auto.
Qed.

Lemma lookup_in g e : In e g -> exists e', lookup g (hid e) = Some e'.
Proof.
  intros Hin. unfold lookup.
  destruct (find (fun x => hid x =? hid e) g) eqn:F; eauto.
  exfalso. apply (find_none _ _ F) in Hin. rewrite Nat.eqb_refl in Hin. discriminate.
Qed.

Lemma entry_unique g a b :
  NoDup (ids g) -> In a g -> In b g -> hid a = hid b -> a = b.
Proof.
  unfold ids. induction g as [|x g IH]; simpl; intros ND Ha Hb Heq; [tauto|].
  inversion ND as [|? ? Hx ND']; subst.
  destruct Ha as [->|Ha], Hb as [->|Hb]; auto.
  - exfalso. apply Hx. rewrite Heq. now apply in_map.
  - exfalso. apply Hx. rewrite <- Heq. now apply in_map.
Qed.

Lemma lookup_unique g e :
  NoDup (ids g) -> In e g -> lookup g (hid e) = Some e.
Proof.
  intros ND Hin. destruct (lookup_in g e Hin) as [e' H].
  rewrite H. f_equal. apply lookup_some in H. destruct H.
  eapply entry_unique; eauto.
Qed.

Lemma remaining_in g h c :
  In c (remaining g h) ->
  In (hid c) (candidates h) /\ lookup g (hid c) = Some c /\
  In c g /\ is_unpaired c = true.
Proof.
  unfold remaining. rewrite in_flat_map. intros [i [Hi Hc]].
  destruct (lookup g i) as [ec|] eqn:L; [|contradiction].
  destruct (is_unpaired ec) eqn:U; [|contradiction].
  destruct Hc as [<-|[]]. destruct (lookup_some _ _ _ L) as [Hin Hid].
  subst i. auto.
Qed.

Lemma top_ranked_in h cs b : top_ranked h cs = Some b -> In b cs.
Proof.
  revert b. induction cs as [|c cs IH]; simpl; intros b H; [discriminate|].
  destruct (top_ranked h cs) as [b'|].
  - destruct (better h c b'); inversion H; subst; auto.
  - inversion H; auto.
Qed.

Lemma top_ranked_none h cs : top_ranked h cs = None -> cs = [].
Proof.
  destruct cs as [|c cs]; simpl; auto.
  destruct (top_ranked h cs) as [b|]; [destruct (better h c b)|]; discriminate.
Qed.

Lemma best_in g h b : best g h = Some b -> In b (remaining g h).
Proof. apply top_ranked_in. Qed.

Lemma mutual_partner_some g h p :
  mutual_partner g h = Some p ->
  is_unpaired h = true /\
  exists b h', best g h = Some b /\ best g b = Some h' /\
               hid h' = hid h /\ hid b = p.
Proof.
  unfold mutual_partner. destruct (is_unpaired h); [|discriminate].
  destruct (best g h) as [b|] eqn:B; [|discriminate].
  destruct (best g b) as [h'|] eqn:B'; [|discriminate].
  destruct (hid h' =? hid h) eqn:E; [|discriminate].
  intros H; inversion H; subst. apply Nat.eqb_eq in E.
  split; auto. exists b, h'. auto.
Qed.

(** ** The pairing loop terminates *)

Lemma ucount_le_length g : ucount g <= List.length g.
Proof. apply filter_length_le. Qed.

Lemma commit_keeps_paired g e :
  is_unpaired (match mutual_partner g e with
               | Some p => set_partner p e
               | None => e
               end) = true -> is_unpaired e = true.
Proof.
  destruct (mutual_partner g e) eqn:M; auto.
  apply mutual_partner_some in M. tauto.
Qed.

Lemma count_map_le (f : Entry -> Entry) l :
  (forall e, is_unpaired (f e) = true -> is_unpaired e = true) ->
  ucount (map f l) <= ucount l.
Proof.
  intros Hf. unfold ucount. induction l as [|x l IH]; simpl; auto.
  destruct (is_unpaired (f x)) eqn:U.
  - rewrite (Hf _ U). simpl. lia.
  - destruct (is_unpaired x); simpl; lia.
Qed.

Lemma count_map_lt (f : Entry -> Entry) l e0 :
  (forall e, is_unpaired (f e) = true -> is_unpaired e = true) ->
  In e0 l -> is_unpaired e0 = true -> is_unpaired (f e0) = false ->
  ucount (map f l) < ucount l.
Proof.
  intros Hf. induction l as [|x l IH]; simpl; intros Hin U0 U1; [tauto|].
  pose proof (count_map_le f l Hf) as Hle. unfold ucount in *. simpl.
  destruct Hin as [->|Hin].
  - rewrite U0, U1. simpl. lia.
  - specialize (IH Hin U0 U1).
    destruct (is_unpaired (f x)) eqn:U.
    + rewrite (Hf _ U). simpl. lia.
    + destruct (is_unpaired x); simpl; lia.
Qed.

Lemma productive_round_shrinks g n :
  new_pair_count g = S n -> ucount (commit_round g) < ucount g.
Proof.
  unfold new_pair_count. intros H.
  destruct (anchors g) as [|e rest] eqn:A; [discriminate|].
  assert (Hin : In e (anchors g)) by (rewrite A; left; reflexivity).
  unfold anchors in Hin. apply filter_In in Hin. destruct Hin as [Hin Hm].
  destruct (mutual_partner g e) as [p|] eqn:M; [|discriminate].
  unfold commit_round.
  apply count_map_lt with (e0 := e); auto.
  - apply commit_keeps_paired.
  - apply mutual_partner_some in M. tauto.
  - rewrite M. reflexivity.
Qed.

Lemma not_halted_stale R s :
  halted R s = false -> has_open (fst s) = true /\ snd s < patience R.
Proof.
  unfold halted, patience. intros H. apply orb_false_iff in H.
  destruct H as [H1 H2]. apply negb_false_iff in H1.
  apply Z.leb_gt in H2. split; auto. lia.
Qed.

Lemma pair_loop_total R fuel : forall s,
  ucount (fst s) * S (patience R) + (patience R - snd s) < fuel ->
  exists s', pair_loop fuel R s = Some s'.
Proof.
  induction fuel as [|fuel IH]; intros s Hm; [lia|].
  simpl. destruct (halted R s) eqn:Hh; [eauto|].
  apply not_halted_stale in Hh. destruct Hh as [_ Hst].
  apply IH. unfold step.
  destruct (new_pair_count (fst s)) eqn:N; simpl.
  - lia.
  - apply productive_round_shrinks in N. nia.
Qed.

Lemma pair_group_total R g : exists g', pair_group R g = Some g'.
Proof.
  unfold pair_group, loop_fuel.
  destruct (pair_loop_total R (S (List.length g) * S (patience R)) (g, 0)) as [s' Hs].
  - simpl. pose proof (ucount_le_length g). nia.
  - rewrite Hs. eauto.
Qed.

Lemma pair_groups_total R idx : exists idx', pair_groups R idx = Some idx'.
Proof.
  induction idx as [|[k g] rest [rest' IH]]; simpl; [eauto|].
  destruct (pair_group_total R g) as [g' Hg]. rewrite Hg, IH. eauto.
Qed.

Lemma iterateGetPairs_total idx R :
  exists idx', pair_groups R idx = Some idx' /\
    iterateGetPairs idx R = Some (idx', all_pairs idx', all_unpaired idx').
Proof.
  destruct (pair_groups_total R idx) as [idx' H]. exists idx'.
  unfold iterateGetPairs. rewrite H. auto.
Qed.

(** ** When the loop stops *)

Lemma rounds_S n : forall s, rounds (S n) s = step (rounds n s).
Proof.
  induction n as [|n IH]; intros s; [reflexivity|].
  change (rounds (S (S n)) s) with (rounds (S n) (step s)).
  rewrite IH. reflexivity.
Qed.

Lemma pair_loop_rounds R fuel : forall s s',
  pair_loop fuel R s = Some s' ->
  exists n, s' = rounds n s /\ halted R s' = true /\
            forall k, k < n -> halted R (rounds k s) = false.
Proof.
  induction fuel as [|fuel IH]; intros s s' H; [discriminate|].
  simpl in H. destruct (halted R s) eqn:Hh.
  - inversion H; subst. exists 0. repeat split; auto. intros k Hk. lia.
  - destruct (IH _ _ H) as [n [E [Hs' Hk]]].
    exists (S n). repeat split; auto.
    intros [|k] Hlt; simpl; auto. apply Hk. lia.
Qed.

Lemma stale_counter g k :
  snd (state_after k g) <= k /\
  (forall j, k - snd (state_after k g) <= j -> j < k ->
             new_pair_count (fst (state_after j g)) = 0) /\
  (snd (state_after k g) < k ->
   new_pair_count (fst (state_after (k - snd (state_after k g) - 1) g)) <> 0).
Proof.
  induction k as [|k [IH1 [IH2 IH3]]].
  - simpl. repeat split; intros; lia.
  - assert (E : state_after (S k) g = step (state_after k g))
      by apply rounds_S.
    rewrite E. unfold step.
    destruct (new_pair_count (fst (state_after k g))) eqn:N; simpl.
    + repeat split.
      * lia.
      * intros j Hj1 Hj2. destruct (Nat.eq_dec j k) as [->|Hne]; auto.
        apply IH2; lia.
      * intros Hlt. apply IH3. lia.
    + repeat split; intros; try lia.
      replace (k - 0) with k by lia. rewrite N. discriminate.
Qed.

Lemma patience_iff R n g :
  (R + 1 <= Z.of_nat (snd (state_after n g)))%Z <-> stale_rounds R n g.
Proof.
  destruct (stale_counter g n) as [H1 [H2 H3]].
  unfold stale_rounds, patience. split.
  - intros H. split; [lia|]. intros j Hj1 Hj2. apply H2; lia.
  - intros [Hn Hz].
    destruct (Z_le_gt_dec (R + 1) (Z.of_nat (snd (state_after n g))))
      as [|Hgt]; auto.
    exfalso. assert (Hlt : snd (state_after n g) < n) by lia.
    apply (H3 Hlt). apply Hz; lia.
Qed.

Lemma step_ids s : ids (fst (step s)) = ids (fst s).
Proof.
  unfold step. destruct (new_pair_count (fst s)); simpl; auto.
  unfold ids, commit_round. rewrite map_map. apply map_ext.
  intros e. destruct (mutual_partner (fst s) e); reflexivity.
Qed.

Lemma rounds_ids n : forall s, ids (fst (rounds n s)) = ids (fst s).
Proof.
  induction n as [|n IH]; intros s; simpl; auto.
  rewrite IH. apply step_ids.
Qed.

Lemma pair_group_rounds R g final :
  pair_group R g = Some final ->
  exists n, final = fst (state_after n g) /\
            halted R (state_after n g) = true /\
            forall k, k < n -> halted R (state_after k g) = false.
Proof.
  unfold pair_group.
  destruct (pair_loop (loop_fuel R g) R (g, 0)) as [s|] eqn:L; [|discriminate].
  intros H; inversion H; subst.
  destruct (pair_loop_rounds _ _ _ _ L) as [n [E [Hh Hk]]].
  exists n. unfold state_after. rewrite <- E. auto.
Qed.

Lemma pair_group_ids R g final : pair_group R g = Some final -> ids final = ids g.
Proof.
  intros H. destruct (pair_group_rounds _ _ _ H) as [n [E _]].
  subst. unfold state_after. apply (rounds_ids n (g, 0)).
Qed.

(** C7.  For every group and every non-negative [stableReps] the pairing
    loop terminates.  It stops after [n] rounds exactly when, for the
    first time, either no unpaired hit has a non-empty remaining-candidate
    set or the last [stableReps + 1] rounds each produced zero new pairs;
    no hit is lost, and every hit not paired in the final state is
    reported unpaired. *)
Theorem pairing_loop_terminates (stableReps : Z) (g : Group) :
  (0 <= stableReps)%Z ->
  exists n final,
    pair_group stableReps g = Some final /\
    final = fst (state_after n g) /\
    (has_open final = false \/ stale_rounds stableReps n g) /\
    (forall k, k < n ->
       has_open (fst (state_after k g)) = true /\
       ~ stale_rounds stableReps k g) /\
    ids final = ids g /\
    (forall e, In e final -> status e <> paired ->
               In (hid e) (unpaired_of final)).
Proof.
  intros _.
  destruct (pair_group_total stableReps g) as [final Hf].
  destruct (pair_group_rounds _ _ _ Hf) as [n [E [Hh Hk]]].
  exists n, final. split; [exact Hf|]. split; [exact E|].
  split; [|split; [|split]].
  - unfold halted in Hh. apply orb_true_iff in Hh.
    destruct Hh as [Hh|Hh].
    + left. rewrite E. now apply negb_true_iff in Hh.
    + right. apply patience_iff. now apply Z.leb_le in Hh.
  - intros k Hlt. specialize (Hk k Hlt).
    unfold halted in Hk. apply orb_false_iff in Hk. destruct Hk as [Hk1 Hk2].
    split; [now apply negb_false_iff in Hk1|].
    intros Hs. apply patience_iff in Hs. apply Z.leb_gt in Hk2. lia.
  - eapply pair_group_ids; eauto.
  - intros e Hin Hst. unfold unpaired_of. apply in_map.
    apply filter_In. split; auto.
    unfold is_unpaired. destruct (status e); congruence.
Qed.

(** ** Coherence of the pairing state *)

Lemma mutual_reciprocal g e p :
  NoDup (ids g) -> In e g -> mutual_partner g e = Some p ->
  In p (candidates e) /\
  exists b, In b g /\ hid b = p /\ mutual_partner g b = Some (hid e).
Proof.
  intros ND Hin M. apply mutual_partner_some in M.
  destruct M as [U [b [h' [B [B' [Eh Eb]]]]]].
  pose proof (best_in _ _ _ B) as Rb. apply remaining_in in Rb.
  destruct Rb as [Hc [_ [Hbg Ub]]].
  pose proof (best_in _ _ _ B') as Rh. apply remaining_in in Rh.
  destruct Rh as [_ [_ [Hh'g _]]].
  assert (h' = e) by (eapply entry_unique; eauto). subst h'.
  split; [now subst p|]. exists b. repeat split; auto.
  unfold mutual_partner. rewrite Ub, B', B, Nat.eqb_refl. reflexivity.
Qed.

Lemma commit_round_in g e' :
  In e' (commit_round g) ->
  exists e, In e g /\
    e' = match mutual_partner g e with
         | Some p => set_partner p e
         | None => e
         end.
Proof.
  unfold commit_round. rewrite in_map_iff. intros [e [E Hin]]. eauto.
Qed.

Lemma commit_round_ids g : ids (commit_round g) = ids g.
Proof.
  unfold ids, commit_round. rewrite map_map. apply map_ext.
  intros e. destruct (mutual_partner g e); reflexivity.
Qed.

Lemma commit_round_inv g : group_inv g -> group_inv (commit_round g).
Proof.
  intros [ND [Hself Hok]]. split; [|split].
  - now rewrite commit_round_ids.
  - intros e' Hin'. apply commit_round_in in Hin'.
    destruct Hin' as [e [Hin ->]].
    destruct (mutual_partner g e); simpl; auto.
  - intros e' Hin'. apply commit_round_in in Hin'.
    destruct Hin' as [e [Hin ->]].
    destruct (mutual_partner g e) as [p|] eqn:M.
    + destruct (mutual_reciprocal _ _ _ ND Hin M) as [Hc [b [Hb [Eb Mb]]]].
      unfold paired_ok. simpl. repeat split; auto.
      * intros ->. apply (Hself e Hin Hc).
      * exists (set_partner (hid e) b). repeat split; auto.
        unfold commit_round. apply in_map_iff. exists b.
        rewrite Mb. auto.
    + pose proof (Hok e Hin) as He. unfold paired_ok in *.
      destruct (partner e) as [p|] eqn:P; auto.
      destruct He as [St [Hne [Hc [e2 [Hin2 [E2 P2]]]]]].
      repeat split; auto. exists e2. repeat split; auto.
      unfold commit_round. apply in_map_iff. exists e2. split; auto.
      assert (M2 : mutual_partner g e2 = None).
      { pose proof (Hok e2 Hin2) as He2. rewrite P2 in He2.
        destruct He2 as [St2 _]. unfold mutual_partner, is_unpaired.
        now rewrite St2. }
      now rewrite M2.
Qed.

Lemma step_inv s : group_inv (fst s) -> group_inv (fst (step s)).
Proof.
  unfold step. destruct (new_pair_count (fst s)); simpl; auto.
  apply commit_round_inv.
Qed.

Lemma rounds_inv n : forall s, group_inv (fst s) -> group_inv (fst (rounds n s)).
Proof.
  induction n as [|n IH]; intros s H; simpl; auto.
  apply IH. now apply step_inv.
Qed.

Lemma pair_group_inv R g final :
  pair_group R g = Some final -> group_inv g -> group_inv final.
Proof.
  intros H Hinv. destruct (pair_group_rounds _ _ _ H) as [n [E _]].
  subst. apply (rounds_inv n (g, 0)). exact Hinv.
Qed.

(** ** Index construction and candidate search *)

Lemma all_entries_add k e idx :
  Permutation (all_entries (add_entry k e idx)) (e :: all_entries idx).
Proof.
  unfold all_entries. induction idx as [|[k' g] rest IH]; simpl.
  - apply Permutation_refl.
  - destruct (key_eqb k k'); simpl.
    + rewrite <- app_assoc. simpl.
      apply Permutation_sym, Permutation_middle.
    + eapply Permutation_trans.
      * apply Permutation_app_head. exact IH.
      * apply Permutation_sym, Permutation_middle.
Qed.

Lemma build_from_entries hits : forall next idx idx',
  build_from next hits idx = inr idx' ->
  Permutation (all_entries idx')
    (all_entries idx ++
     map (fun ih => fresh_entry (fst ih) (snd ih))
         (combine (seq next (List.length hits)) hits)).
Proof.
  induction hits as [|h hits IH]; simpl; intros next idx idx' H.
  - inversion H; subst. rewrite app_nil_r. apply Permutation_refl.
  - destruct (well_formed h); [|discriminate].
    apply IH in H. eapply Permutation_trans; [exact H|].
    eapply Permutation_trans.
    + apply Permutation_app_tail. apply all_entries_add.
    + simpl. apply Permutation_middle.
Qed.

Lemma combine_seq_in (hits : list HitRecord) : forall next i h,
  In (i, h) (combine (seq next (List.length hits)) hits) ->
  next <= i /\ nth_error hits (i - next) = Some h.
Proof.
  induction hits as [|x hits IH]; simpl; intros next i h H; [tauto|].
  destruct H as [H|H].
  - inversion H; subst. rewrite Nat.sub_diag. auto.
  - apply IH in H. destruct H as [Hle Hn]. split; [lia|].
    replace (i - next) with (S (i - S next)) by lia. exact Hn.
Qed.

Lemma table2dict_entries hits idx :
  table2dict hits = inr idx ->
  Permutation (ids (all_entries idx)) (seq 0 (List.length hits)) /\
  forall e, In e (all_entries idx) ->
            is_fresh e /\ nth_error hits (hid e) = Some (rec e).
Proof.
  unfold table2dict. intros H. apply build_from_entries in H. simpl in H.
  split.
  - unfold ids. rewrite (Permutation_map hid H). rewrite map_map. simpl.
    clear H. generalize 0 at 1 2.
    induction hits as [|h hits IH]; simpl; intros n; auto.
  - intros e Hin. apply (Permutation_in _ H) in Hin.
    apply in_map_iff in Hin. destruct Hin as [[i h] [<- Hin]].
    apply combine_seq_in in Hin. destruct Hin as [_ Hn].
    rewrite Nat.sub_0_r in Hn. simpl. repeat split; auto.
Qed.

Lemma parse_group_ids maxDist g : ids (parse_group maxDist g) = ids g.
Proof.
  unfold ids, parse_group. rewrite map_map. apply map_ext. reflexivity.
Qed.

Lemma parse_group_inv maxDist g :
  NoDup (ids g) -> (forall e, In e g -> is_fresh e) ->
  group_inv (parse_group maxDist g).
Proof.
  intros ND Hf. split; [|split].
  - now rewrite parse_group_ids.
  - intros e' Hin. unfold parse_group in Hin. apply in_map_iff in Hin.
    destruct Hin as [e [<- Hin]]. simpl. unfold find_candidates.
    rewrite in_map_iff. intros [c [Hc Hcin]].
    apply filter_In in Hcin. destruct Hcin as [_ Hcomp].
    unfold compatible in Hcomp. apply andb_true_iff in Hcomp.
    destruct Hcomp as [_ Hne]. apply negb_true_iff in Hne.
    apply Nat.eqb_neq in Hne. congruence.
  - intros e' Hin. unfold parse_group in Hin. apply in_map_iff in Hin.
    destruct Hin as [e [<- Hin]]. unfold paired_ok. simpl.
    destruct (Hf e Hin) as [_ [-> ->]]. reflexivity.
Qed.

Lemma all_entries_cons k g rest :
  all_entries ((k, g) :: rest) = g ++ all_entries rest.
Proof. reflexivity. Qed.

Lemma ids_app g1 g2 : ids (g1 ++ g2) = ids g1 ++ ids g2.
Proof. apply map_app. Qed.

Lemma parseHits_ids idx maxDist :
  ids (all_entries (parseHits idx maxDist)) = ids (all_entries idx).
Proof.
  induction idx as [|[k g] rest IH]; [reflexivity|].
  unfold parseHits in *. cbn [map fst snd].
  rewrite !all_entries_cons, !ids_app, parse_group_ids.
  now rewrite IH.
Qed.

Lemma NoDup_group idx kg :
  NoDup (ids (all_entries idx)) -> In kg idx -> NoDup (ids (snd kg)).
Proof.
  induction idx as [|[k g] rest IH]; intros ND Hin; [destruct Hin|].
  rewrite all_entries_cons, ids_app in ND.
  destruct Hin as [<-|Hin]; cbn [snd].
  - eapply NoDup_app_remove_r; eauto.
  - apply IH; auto. eapply NoDup_app_remove_l; eauto.
Qed.

Lemma in_all_entries idx kg e :
  In kg idx -> In e (snd kg) -> In e (all_entries idx).
Proof.
  intros H1 H2. unfold all_entries. apply in_flat_map. eauto.
Qed.

Lemma parseHits_inv hits idx maxDist :
  table2dict hits = inr idx -> index_inv (parseHits idx maxDist).
Proof.
  intros H. apply table2dict_entries in H. destruct H as [Hp Hf].
  assert (ND : NoDup (ids (all_entries idx))).
  { eapply Permutation_NoDup; [apply Permutation_sym; exact Hp|].
    apply seq_NoDup. }
  split.
  - now rewrite parseHits_ids.
  - intros kg Hin. unfold parseHits in Hin. apply in_map_iff in Hin.
    destruct Hin as [[k g] [<- Hin]]. simpl.
    apply parse_group_inv.
    + apply (NoDup_group idx (k, g)); auto.
    + intros e He. apply Hf. eapply in_all_entries; eauto.
Qed.

Lemma pair_groups_inv R idx : forall idx',
  pair_groups R idx = Some idx' -> index_inv idx ->
  index_inv idx' /\ ids (all_entries idx') = ids (all_entries idx).
Proof.
  induction idx as [|[k g] rest IH]; simpl; intros idx' H Hinv.
  - inversion H; subst. auto.
  - destruct (pair_group R g) as [g'|] eqn:G; [|discriminate].
    destruct (pair_groups R rest) as [rest'|] eqn:Rr; [|discriminate].
    inversion H; subst. destruct Hinv as [ND Hg].
    rewrite all_entries_cons, ids_app in ND.
    destruct (IH rest' eq_refl) as [[ND' Hg'] Hids].
    { split; [eapply NoDup_app_remove_l; eauto|].
      intros kg Hin. apply Hg. now right. }
    assert (Eids : ids (all_entries ((k, g') :: rest')) =
                   ids (all_entries ((k, g) :: rest))).
    { rewrite !all_entries_cons, !ids_app, Hids.
      now rewrite (pair_group_ids _ _ _ G). }
    split; [split|]; auto.
    + rewrite Eids, all_entries_cons, ids_app. exact ND.
    + intros kg [<-|Hin]; simpl; auto.
      eapply pair_group_inv; eauto. apply (Hg (k, g)). now left.
Qed.

(** ** Every hit is in exactly one of the two result sets *)

Lemma flat_map_nil {A B : Type} (F : A -> list B) l :
  (forall x, In x l -> F x = []) -> flat_map F l = [].
Proof.
  induction l as [|x l IH]; simpl; intros H; auto.
  rewrite (H x), IH; auto.
Qed.

Lemma flat_map_one {A B : Type} (F : A -> list B) l x0 :
  NoDup l -> In x0 l -> (forall x, In x l -> x <> x0 -> F x = []) ->
  flat_map F l = F x0.
Proof.
  induction l as [|x l IH]; simpl; intros ND Hin H; [tauto|].
  inversion ND as [|? ? Hx ND']; subst.
  destruct Hin as [->|Hin].
  - rewrite (flat_map_nil F l), app_nil_r; auto.
    intros y Hy. apply H; auto. intros ->. contradiction.
  - rewrite (H x), IH; auto.
    intros ->. contradiction.
Qed.

Lemma filter_flat_map {A B : Type} (P : B -> bool) (F : A -> list B) l :
  filter P (flat_map F l) = flat_map (fun x => filter P (F x)) l.
Proof.
  induction l as [|x l IH]; simpl; auto.
  now rewrite filter_app, IH.
Qed.

Lemma has_member_make_pair i e e' :
  has_member i (make_pair e e') = (hid e =? i) || (hid e' =? i).
Proof.
  unfold make_pair, has_member.
  destruct (hit_start (rec e) <=? hit_start (rec e'))%Z; simpl; auto.
  apply orb_comm.
Qed.

Lemma pair_from_cases g e :
  pair_from g e = [] \/
  exists e', partner e = Some (hid e') /\ hid e < hid e' /\
             In e' g /\ pair_from g e = [make_pair e e'].
Proof.
  unfold pair_from. destruct (partner e) as [p|]; auto.
  destruct (hid e <? p) eqn:L; auto.
  destruct (lookup g p) as [e'|] eqn:Lk; auto.
  right. apply lookup_some in Lk. destruct Lk as [Hin <-].
  apply Nat.ltb_lt in L. exists e'. auto.
Qed.

Lemma NoDup_entries g : NoDup (ids g) -> NoDup g.
Proof. apply NoDup_map_inv. Qed.

Lemma pair_count_unpaired g e :
  group_inv g -> In e g -> partner e = None ->
  filter (has_member (hid e)) (pairs_of g) = [].
Proof.
  intros [ND [_ Hok]] Hin P. unfold pairs_of.
  rewrite filter_flat_map. apply flat_map_nil. intros x Hx.
  destruct (pair_from_cases g x) as [->|[x' [Px [Hlt [Hx' ->]]]]]; auto.
  simpl. rewrite has_member_make_pair.
  destruct (hid x =? hid e) eqn:E1.
  - apply Nat.eqb_eq in E1.
    assert (x = e) by (eapply entry_unique; eauto). subst. congruence.
  - destruct (hid x' =? hid e) eqn:E2; auto.
    apply Nat.eqb_eq in E2.
    assert (x' = e) by (eapply entry_unique; eauto). subst x'.
    pose proof (Hok x Hx) as Hpx. unfold paired_ok in Hpx. rewrite Px in Hpx.
    destruct Hpx as [_ [_ [_ [e2 [Hin2 [E2' P2]]]]]].
    assert (e2 = e) by (eapply entry_unique; eauto). subst. congruence.
Qed.

Lemma pair_count_paired g e p :
  group_inv g -> In e g -> partner e = Some p ->
  pair_count (hid e) (pairs_of g) = 1.
Proof.
  intros [ND [Hself Hok]] Hin P.
  pose proof (Hok e Hin) as He. unfold paired_ok in He. rewrite P in He.
  destruct He as [_ [Hne [_ [e1 [Hin1 [E1 P1]]]]]]. subst p.
  (* the member with the lower id lists the pair *)
  assert (Hanchor : exists a a', In a g /\ In a' g /\
            partner a = Some (hid a') /\ partner a' = Some (hid a) /\
            hid a < hid a' /\ (hid e = hid a \/ hid e = hid a')).
  { destruct (Nat.lt_ge_cases (hid e) (hid e1)).
    - exists e, e1. repeat split; auto.
    - exists e1, e. repeat split; auto. lia. }
  destruct Hanchor as [a [a' [Ha [Ha' [Pa [Pa' [Hlt Hmem]]]]]]].
  unfold pair_count, pairs_of. rewrite filter_flat_map.
  rewrite (flat_map_one _ g a); auto using NoDup_entries.
  - unfold pair_from. rewrite Pa.
    apply Nat.ltb_lt in Hlt. rewrite Hlt.
    rewrite (lookup_unique _ _ ND Ha'). simpl.
    rewrite has_member_make_pair.
    destruct Hmem as [-> | ->]; rewrite Nat.eqb_refl, ?orb_true_r; reflexivity.
  - intros x Hx Hxa.
    destruct (pair_from_cases g x) as [->|[x' [Px [Hltx [Hx' ->]]]]]; auto.
    simpl. rewrite has_member_make_pair.
    assert (Px' : partner x' = Some (hid x)).
    { pose proof (Hok x Hx) as Hpx. unfold paired_ok in Hpx.
      rewrite Px in Hpx. destruct Hpx as [_ [_ [_ [e2 [Hin2 [E2 P2]]]]]].
      assert (e2 = x') by (eapply entry_unique; eauto). now subst. }
    assert (Hno : forall y, In y g -> (hid y = hid a \/ hid y = hid a') ->
                            hid x <> hid y /\ hid x' <> hid y).
    { intros y Hy [Ey|Ey].
      - assert (y = a) by (eapply entry_unique; eauto). subst y. split.
        + intros Exy. apply Hxa. eapply entry_unique; eauto.
        + intros Exy. assert (x' = a) by (eapply entry_unique; eauto).
          subst x'. rewrite Pa in Px'. inversion Px' as [Eq].
          assert (a' = x) by (eapply entry_unique; eauto). subst. lia.
      - assert (y = a') by (eapply entry_unique; eauto). subst y. split.
        + intros Exy. assert (x = a') by (eapply entry_unique; eauto).
          subst x. rewrite Pa' in Px. inversion Px as [Eq].
          assert (a = x') by (eapply entry_unique; eauto). subst. lia.
        + intros Exy. assert (x' = a') by (eapply entry_unique; eauto).
          subst x'. rewrite Pa' in Px'. inversion Px' as [Eq].
          apply Hxa. eapply entry_unique; eauto. }
    destruct (Hno e Hin Hmem) as [N1 N2].
    apply Nat.eqb_neq in N1, N2. now rewrite N1, N2.
Qed.

Lemma pair_count_outside g i :
  ~ In i (ids g) -> filter (has_member i) (pairs_of g) = [].
Proof.
  intros Hnot. unfold pairs_of. rewrite filter_flat_map.
  apply flat_map_nil. intros x Hx.
  destruct (pair_from_cases g x) as [->|[x' [_ [_ [Hx' ->]]]]]; auto.
  simpl. rewrite has_member_make_pair.
  assert (N1 : hid x <> i) by (intros <-; apply Hnot; now apply in_map).
  assert (N2 : hid x' <> i) by (intros <-; apply Hnot; now apply in_map).
  apply Nat.eqb_neq in N1, N2. now rewrite N1, N2.
Qed.

Lemma NoDup_map_filter {A B : Type} (f : A -> B) (p : A -> bool) l :
  NoDup (map f l) -> NoDup (map f (filter p l)).
Proof.
  induction l as [|x l IH]; simpl; intros ND; auto.
  inversion ND as [|? ? Hx ND']; subst.
  destruct (p x); simpl; auto. constructor; auto.
  intros Hin. apply Hx. apply in_map_iff in Hin.
  destruct Hin as [y [E Hy]]. apply filter_In in Hy.
  rewrite <- E. apply in_map. tauto.
Qed.

Lemma unpaired_of_in g i :
  In i (unpaired_of g) <-> exists e, In e g /\ hid e = i /\ status e = unpaired.
Proof.
  unfold unpaired_of. rewrite in_map_iff. split.
  - intros [e [E Hin]]. apply filter_In in Hin. destruct Hin as [Hin U].
    exists e. repeat split; auto. unfold is_unpaired in U.
    destruct (status e); auto; discriminate.
  - intros [e [Hin [E St]]]. exists e. split; auto.
    apply filter_In. split; auto. unfold is_unpaired. now rewrite St.
Qed.

Lemma group_partition g i :
  group_inv g ->
  (In i (ids g) -> in_one_set i (pairs_of g) (unpaired_of g)) /\
  (~ In i (ids g) ->
   pair_count i (pairs_of g) = 0 /\ count_occ Nat.eq_dec (unpaired_of g) i = 0).
Proof.
  intros Hinv. pose proof Hinv as [ND [_ Hok]]. split.
  - intros Hin. unfold ids in Hin. apply in_map_iff in Hin.
    destruct Hin as [e [<- Hin]].
    pose proof (Hok e Hin) as He. unfold paired_ok in He.
    destruct (partner e) as [p|] eqn:P.
    + left. split; [eapply pair_count_paired; eauto|].
      apply count_occ_not_In. rewrite unpaired_of_in.
      intros [e2 [Hin2 [E2 St2]]].
      assert (e2 = e) by (eapply entry_unique; eauto). subst.
      destruct He as [St _]. congruence.
    + right. split.
      * unfold pair_count. now rewrite pair_count_unpaired.
      * apply NoDup_count_occ'.
        -- unfold unpaired_of. now apply NoDup_map_filter.
        -- apply unpaired_of_in. exists e. auto.
  - intros Hnot. split.
    + unfold pair_count. now rewrite pair_count_outside.
    + apply count_occ_not_In. rewrite unpaired_of_in.
      intros [e [Hin [E _]]]. apply Hnot. subst. now apply in_map.
Qed.

Lemma NoDup_app_not_in (l1 l2 : list nat) i :
  NoDup (l1 ++ l2) -> In i l1 -> In i l2 -> False.
Proof.
  induction l1 as [|x l IHl]; simpl; intros ND H1 H2; [tauto|].
  inversion ND as [|? ? Hx ND']; subst. destruct H1 as [->|H1].
  - apply Hx. apply in_or_app. now right.
  - now apply IHl.
Qed.

Lemma index_partition idx i :
  index_inv idx ->
  (In i (ids (all_entries idx)) ->
   in_one_set i (all_pairs idx) (all_unpaired idx)) /\
  (~ In i (ids (all_entries idx)) ->
   pair_count i (all_pairs idx) = 0 /\
   count_occ Nat.eq_dec (all_unpaired idx) i = 0).
Proof.
  induction idx as [|[k g] rest IH]; intros [ND Hg].
  - split; [intros []|]. intros _. split; reflexivity.
  - rewrite all_entries_cons, ids_app in *.
    assert (Hrest : index_inv rest).
    { split; [eapply NoDup_app_remove_l; eauto|].
      intros kg Hin. apply Hg. now right. }
    specialize (IH Hrest). destruct IH as [IHin IHout].
    destruct (group_partition g i (Hg (k, g) (or_introl eq_refl)))
      as [Gin Gout].
    unfold all_pairs, all_unpaired, in_one_set, pair_count in *.
    cbn [flat_map snd]. rewrite !filter_app, !length_app, !count_occ_app.
    assert (Hdisj : In i (ids g) -> ~ In i (ids (all_entries rest))).
    { intros H1 H2. eapply NoDup_app_not_in; eauto. }
    split.
    + intros Hin. apply in_app_or in Hin. destruct Hin as [Hin|Hin].
      * destruct (IHout (Hdisj Hin)) as [-> ->].
        rewrite !Nat.add_0_r. now apply Gin.
      * assert (Hg' : ~ In i (ids g)) by (intros H; now apply (Hdisj H)).
        destruct (Gout Hg') as [-> ->]. simpl. now apply IHin.
    + intros Hnot.
      assert (H1 : ~ In i (ids g)) by (intros H; apply Hnot, in_or_app; auto).
      assert (H2 : ~ In i (ids (all_entries rest)))
        by (intros H; apply Hnot, in_or_app; auto).
      destruct (Gout H1) as [-> ->]. destruct (IHout H2) as [-> ->]. auto.
Qed.

Lemma run_engine_ok maxDist stableReps hits idx :
  table2dict hits = inr idx ->
  exists idx',
    pair_groups stableReps (parseHits idx maxDist) = Some idx' /\
    run_engine maxDist stableReps hits =
      inr (Some (idx', all_pairs idx', all_unpaired idx')) /\
    index_inv idx' /\
    Permutation (ids (all_entries idx')) (seq 0 (List.length hits)).
Proof.
  intros Ht. unfold run_engine. rewrite Ht.
  destruct (iterateGetPairs_total (parseHits idx maxDist) stableReps)
    as [idx' [Hg Hi]].
  destruct (pair_groups_inv _ _ _ Hg (parseHits_inv _ _ maxDist Ht))
    as [Hinv Hids].
  exists idx'. rewrite Hi. split; [exact Hg|]. split; [reflexivity|].
  split; [exact Hinv|].
  rewrite Hids, parseHits_ids. now apply table2dict_entries.
Qed.

Lemma table2dict_total hits :
  forallb well_formed hits = true -> exists idx, table2dict hits = inr idx.
Proof.
  unfold table2dict. generalize 0, (@nil (GroupKey * Group)).
  induction hits as [|h hits IH]; simpl; intros n idx H; [eauto|].
  apply andb_true_iff in H. destruct H as [-> H]. now apply IH.
Qed.

(** C1.  For every hit list and configuration: when the engine runs
    (it does for every well-formed hit list), every input hit id (the
    positions [0 .. length hits - 1]) is a member of exactly one pair and
    not in the unpaired set, or in no pair and exactly once in the
    unpaired set.  None is in both, none is missing, and no other id
    shows up in either set. *)
Theorem engine_partition (maxDist : option Z) (stableReps : Z)
  (hits : list HitRecord) :
  (forallb well_formed hits = true ->
   exists idx' pairs leftover,
     run_engine maxDist stableReps hits = inr (Some (idx', pairs, leftover))) /\
  (forall idx' pairs leftover,
     run_engine maxDist stableReps hits = inr (Some (idx', pairs, leftover)) ->
     forall i,
       (i < List.length hits -> in_one_set i pairs leftover) /\
       (List.length hits <= i ->
        pair_count i pairs = 0 /\ count_occ Nat.eq_dec leftover i = 0)).
Proof.
  split.
  - intros Hwf. destruct (table2dict_total hits Hwf) as [idx Ht].
    destruct (run_engine_ok maxDist stableReps hits idx Ht)
      as [idx' [_ [Hrun _]]]. eauto.
  - intros idx' pairs leftover Hrun i.
    destruct (table2dict hits) as [err|idx] eqn:Ht;
      [unfold run_engine in Hrun; rewrite Ht in Hrun; discriminate|].
    destruct (run_engine_ok maxDist stableReps hits idx Ht)
      as [idx1 [_ [Hrun1 [Hinv Hperm]]]].
    rewrite Hrun1 in Hrun. inversion Hrun; subst; clear Hrun.
    assert (Hin : In i (ids (all_entries idx')) <-> i < List.length hits).
    { split; intros H.
      - apply (Permutation_in _ Hperm) in H. apply in_seq in H. lia.
      - apply (Permutation_in _ (Permutation_sym Hperm)). apply in_seq. lia. }
    destruct (index_partition idx' i Hinv) as [P1 P2]. split; intros Hi.
    + apply P1. now apply Hin.
    + apply P2. intros H. apply Hin in H. lia.
Qed.

(** ** Committed pairs respect the distance bound *)

Lemma gap_sym h h' : gap h h' = gap h' h.
Proof. unfold gap. lia. Qed.

Lemma commit_round_core g : map core (commit_round g) = map core g.
Proof.
  unfold commit_round. rewrite map_map. apply map_ext.
  intros e. destruct (mutual_partner g e); reflexivity.
Qed.

Lemma rounds_core n : forall s, map core (fst (rounds n s)) = map core (fst s).
Proof.
  induction n as [|n IH]; intros s; simpl; auto.
  rewrite IH. unfold step. destruct (new_pair_count (fst s)); simpl; auto.
  apply commit_round_core.
Qed.

Lemma pair_group_core R g final :
  pair_group R g = Some final -> map core final = map core g.
Proof.
  intros H. destruct (pair_group_rounds _ _ _ H) as [n [-> _]].
  apply (rounds_core n (g, 0)).
Qed.

Lemma pair_groups_core R (P : list (nat * HitRecord * list nat) -> Prop) idx :
  forall idx', pair_groups R idx = Some idx' ->
  (forall kg, In kg idx -> P (map core (snd kg))) ->
  forall kg', In kg' idx' -> P (map core (snd kg')).
Proof.
  induction idx as [|[k g] rest IH]; simpl; intros idx' H HP kg' Hin.
  - inversion H; subst. destruct Hin.
  - destruct (pair_group R g) as [g'|] eqn:G; [|discriminate].
    destruct (pair_groups R rest) as [rest'|] eqn:Rr; [|discriminate].
    inversion H; subst. destruct Hin as [<-|Hin].
    + simpl. rewrite (pair_group_core _ _ _ G). apply (HP (k, g)). now left.
    + eapply IH; eauto.
Qed.

Lemma in_core e g : In e g -> In (hid e, rec e, candidates e) (map core g).
Proof. intros H. apply (in_map core) in H. exact H. Qed.

Lemma parse_group_bound D g :
  NoDup (ids g) -> within_bound D (map core (parse_group (Some D) g)).
Proof.
  intros ND i h c i' h' c' H1 H2 Hc.
  unfold parse_group in H1, H2. rewrite map_map in H1, H2.
  apply in_map_iff in H1, H2.
  destruct H1 as [e [E1 He]], H2 as [e' [E2 He']].
  inversion E1; subst; clear E1. inversion E2; subst; clear E2.
  unfold find_candidates in Hc. apply in_map_iff in Hc.
  destruct Hc as [x [Ex Hx]]. apply filter_In in Hx.
  destruct Hx as [Hxg Hcomp].
  assert (x = e') by (eapply entry_unique; eauto). subst x.
  unfold compatible in Hcomp. apply andb_true_iff in Hcomp.
  destruct Hcomp as [Hcomp _]. apply andb_true_iff in Hcomp.
  destruct Hcomp as [_ Hw]. simpl in Hw. now apply Z.leb_le.
Qed.

Lemma parse_group_from_input hits maxDist g :
  (forall e, In e g -> nth_error hits (hid e) = Some (rec e)) ->
  from_input hits (map core (parse_group maxDist g)).
Proof.
  intros Hg i h c H. unfold parse_group in H. rewrite map_map in H.
  apply in_map_iff in H. destruct H as [e [E He]].
  inversion E; subst. now apply Hg.
Qed.

Lemma pairs_of_bound D hits g p :
  group_inv g -> within_bound D (map core g) -> from_input hits (map core g) ->
  In p (pairs_of g) ->
  exists h h', nth_error hits (five_prime p) = Some h /\
               nth_error hits (three_prime p) = Some h' /\
               (gap h h' <= D)%Z.
Proof.
  intros [ND [_ Hok]] HD Hin Hp. unfold pairs_of in Hp.
  apply in_flat_map in Hp. destruct Hp as [e [He Hp]].
  destruct (pair_from_cases g e) as [E|[e' [Pe [_ [He' E]]]]];
    rewrite E in Hp; [destruct Hp|].
  destruct Hp as [<-|[]].
  pose proof (Hok e He) as Hpe. unfold paired_ok in Hpe. rewrite Pe in Hpe.
  destruct Hpe as [_ [_ [Hc _]]].
  pose proof (HD _ _ _ _ _ _ (in_core _ _ He) (in_core _ _ He') Hc) as Hgap.
  pose proof (Hin _ _ _ (in_core _ _ He)) as N1.
  pose proof (Hin _ _ _ (in_core _ _ He')) as N2.
  unfold make_pair.
  destruct (hit_start (rec e) <=? hit_start (rec e'))%Z; simpl.
  - exists (rec e), (rec e'). auto.
  - exists (rec e'), (rec e). rewrite gap_sym. auto.
Qed.

Lemma run_engine_bound hits D R idx' pairs leftover p :
  run_engine (Some D) R hits = inr (Some (idx', pairs, leftover)) ->
  In p pairs ->
  exists h h', nth_error hits (five_prime p) = Some h /\
               nth_error hits (three_prime p) = Some h' /\
               (gap h h' <= D)%Z.
Proof.
  intros Hrun Hp. unfold run_engine in Hrun.
  destruct (table2dict hits) as [err|idx] eqn:Ht; [discriminate|].
  destruct (run_engine_ok (Some D) R hits idx Ht)
    as [idx1 [Hg [Hrun' [Hinv _]]]].
  unfold run_engine in Hrun'. rewrite Ht in Hrun'.
  rewrite Hrun' in Hrun. inversion Hrun; subst; clear Hrun.
  unfold all_pairs in Hp. apply in_flat_map in Hp.
  destruct Hp as [kg' [Hkg' Hp]].
  destruct (table2dict_entries hits idx Ht) as [Hperm Hfresh].
  assert (ND : NoDup (ids (all_entries idx))).
  { eapply Permutation_NoDup; [apply Permutation_sym; exact Hperm|].
    apply seq_NoDup. }
  assert (HP : within_bound D (map core (snd kg')) /\
               from_input hits (map core (snd kg'))).
  { apply (pair_groups_core R
             (fun cs => within_bound D cs /\ from_input hits cs)
             (parseHits idx (Some D)) idx' Hg); auto.
    intros kg Hin. unfold parseHits in Hin. apply in_map_iff in Hin.
    destruct Hin as [[k g] [<- Hin]]. simpl. split.
    - apply parse_group_bound. apply (NoDup_group idx (k, g)); auto.
    - apply parse_group_from_input. intros e He. apply Hfresh.
      eapply in_all_entries; eauto. }
  destruct HP as [HD HI].
  eapply pairs_of_bound; eauto. now apply (proj2 Hinv).
Qed.

Lemma two_hit_group k h0 h1 :
  strand h0 = Plus -> strand h1 = Minus ->
  pair_groups 0 (parseHits [(k, [fresh_entry 0 h0; fresh_entry 1 h1])] None) =
  Some [(k, [mkEntry 0 h0 [1] (Some 1) paired;
             mkEntry 1 h1 [0] (Some 0) paired])].
Proof.
  intros S0 S1. destruct h0, h1; simpl in S0, S1; subst. reflexivity.
Qed.

Lemma far_apart_paired d :
  (0 <= d)%Z ->
  exists idx', run_engine None 0 (far_apart d) =
    inr (Some (idx', [mkPair 0 1 "chr1" 0 (20 + d)], [])).
Proof.
  intros Hd. unfold run_engine, table2dict, far_apart, iterateGetPairs.
  remember (10 + d)%Z as s eqn:Es. remember (20 + d)%Z as t eqn:Et.
  assert (W : (s <? t)%Z = true) by (apply Z.ltb_lt; lia).
  unfold build_from, well_formed. cbn [hit_start hit_end]. rewrite W.
  change (0 <? 10)%Z with true. cbn iota.
  unfold add_entry at 2. unfold add_entry, key_of, key_eqb.
  cbn [model chromosome fst snd]. rewrite !String.eqb_refl. cbn [andb app].
  rewrite two_hit_group by reflexivity.
  eexists. unfold all_pairs, all_unpaired, pairs_of, unpaired_of.
  cbn -[make_pair]. unfold make_pair. cbn [rec hit_start hit_end hid chromosome].
  replace (0 <=? s)%Z with true by (symmetry; apply Z.leb_le; lia).
  replace (Z.min 0 s) with 0%Z by lia.
  replace (Z.max 10 t) with t by lia.
  reflexivity.
Qed.

(** C3.  With [maxDist] set to [D], the two hits of every committed pair
    are input hits whose gap
    [max(0, max(h.start,h'.start) - min(h.end,h'.end))] is at most [D].
    With [maxDist] unset no bound applies: for every distance [d >= 0]
    the two opposite-strand hits of [far_apart d], whose gap is [d], are
    committed as a pair. *)
Theorem distance_bound :
  (forall hits D stableReps idx' pairs leftover p,
     run_engine (Some D) stableReps hits = inr (Some (idx', pairs, leftover)) ->
     In p pairs ->
     exists h h', nth_error hits (five_prime p) = Some h /\
                  nth_error hits (three_prime p) = Some h' /\
                  (gap h h' <= D)%Z) /\
  (forall d, (0 <= d)%Z ->
     exists idx' h h',
       run_engine None 0 (far_apart d) =
         inr (Some (idx', [mkPair 0 1 "chr1" 0 (20 + d)], [])) /\
       nth_error (far_apart d) 0 = Some h /\
       nth_error (far_apart d) 1 = Some h' /\
       gap h h' = d).
Proof.
  split.
  - intros. eapply run_engine_bound; eauto.
  - intros d Hd. destruct (far_apart_paired d Hd) as [idx' H].
    exists idx'. do 2 eexists. split; [exact H|].
    split; [reflexivity|]. split; [reflexivity|].
    unfold gap. cbn [hit_start hit_end]. lia.
Qed.

(** ** The ranking of candidates is a strict total order *)

Lemma better_asym h a b : better h a b = true -> better h b a = true -> False.
Proof.
  unfold better.
  destruct (Qcompare_spec (evalue (rec a)) (evalue (rec b)));
  destruct (Qcompare_spec (evalue (rec b)) (evalue (rec a)));
  destruct (Z.compare_spec (gap (rec h) (rec a)) (gap (rec h) (rec b)));
  destruct (Z.compare_spec (gap (rec h) (rec b)) (gap (rec h) (rec a)));
  order_cases.
Qed.

Lemma better_trans h a b c :
  better h a b = true -> better h b c = true -> better h a c = true.
Proof.
  unfold better.
  destruct (Qcompare_spec (evalue (rec a)) (evalue (rec b)));
  destruct (Qcompare_spec (evalue (rec b)) (evalue (rec c)));
  destruct (Qcompare_spec (evalue (rec a)) (evalue (rec c)));
  try (order_cases; fail);
  destruct (Z.compare_spec (gap (rec h) (rec a)) (gap (rec h) (rec b)));
  destruct (Z.compare_spec (gap (rec h) (rec b)) (gap (rec h) (rec c)));
  destruct (Z.compare_spec (gap (rec h) (rec a)) (gap (rec h) (rec c)));
  order_cases.
Qed.

Lemma better_total h a b :
  hid a <> hid b -> better h a b = true \/ better h b a = true.
Proof.
  intros Hne. unfold better.
  destruct (Qcompare_spec (evalue (rec a)) (evalue (rec b)));
  destruct (Qcompare_spec (evalue (rec b)) (evalue (rec a)));
    auto; try lra.
  destruct (Z.compare_spec (gap (rec h) (rec a)) (gap (rec h) (rec b)));
  destruct (Z.compare_spec (gap (rec h) (rec b)) (gap (rec h) (rec a)));
    auto; try lia.
  destruct (Nat.lt_total (hid a) (hid b)) as [Hlt|[Heq|Hgt]].
  - left. now apply Nat.ltb_lt.
  - contradiction.
  - right. now apply Nat.ltb_lt.
Qed.

(** ** The best remaining candidate is unique *)

Lemma remaining_same_id g h a b :
  In a (remaining g h) -> In b (remaining g h) -> hid a = hid b -> a = b.
Proof.
  intros Ha Hb E. apply remaining_in in Ha, Hb.
  destruct Ha as [_ [La _]], Hb as [_ [Lb _]].
  rewrite E in La. congruence.
Qed.

Lemma is_best_unique g h b1 b2 : is_best g h b1 -> is_best g h b2 -> b1 = b2.
Proof.
  intros [I1 H1] [I2 H2].
  destruct (Nat.eq_dec (hid b1) (hid b2)) as [E|N].
  - eapply remaining_same_id; eauto.
  - exfalso. apply (better_asym h b1 b2); [apply H1|apply H2]; auto.
Qed.

Lemma top_ranked_best h cs : forall b,
  (forall x y, In x cs -> In y cs -> hid x = hid y -> x = y) ->
  top_ranked h cs = Some b ->
  forall c, In c cs -> hid c <> hid b -> better h b c = true.
Proof.
  induction cs as [|a cs IH]; simpl; intros b Huniq H c Hc Hne; [tauto|].
  assert (Huniq' : forall x y, In x cs -> In y cs -> hid x = hid y -> x = y)
    by (intros; apply Huniq; auto).
  destruct (top_ranked h cs) as [b'|] eqn:T.
  - pose proof (top_ranked_in _ _ _ T) as Hb'.
    destruct (better h a b') eqn:B; inversion H; subst; clear H.
    + destruct Hc as [->|Hc]; [congruence|].
      destruct (Nat.eq_dec (hid c) (hid b')) as [E|N].
      * assert (c = b') by (apply Huniq; auto). now subst.
      * eapply better_trans; eauto.
    + destruct Hc as [<-|Hc].
      * destruct (better_total h a b Hne) as [Hab|Hba]; congruence.
      * eapply IH; eauto.
  - inversion H; subst. apply top_ranked_none in T. subst.
    destruct Hc as [->|[]]. congruence.
Qed.

Lemma best_is_best g h b : best g h = Some b -> is_best g h b.
Proof.
  intros H. split; [now apply best_in|].
  intros c Hc Hne. eapply top_ranked_best; eauto.
  intros x y. apply remaining_same_id.
Qed.

Lemma is_best_best g h b : is_best g h b -> best g h = Some b.
Proof.
  intros Hb. destruct (best g h) as [b'|] eqn:B.
  - f_equal. eapply is_best_unique; eauto. now apply best_is_best.
  - unfold best in B. apply top_ranked_none in B.
    destruct Hb as [Hin _]. rewrite B in Hin. destruct Hin.
Qed.

Lemma mutual_partner_iff g e p :
  mutual_partner g e = Some p <-> exists b, mutually_best g e b /\ hid b = p.
Proof.
  split.
  - intros M. apply mutual_partner_some in M.
    destruct M as [U [b [h' [B [B' [Eh Eb]]]]]].
    exists b. split; auto. split; auto. split; [now apply best_is_best|].
    exists h'. split; auto. now apply best_is_best.
  - intros [b [[U [Hb [h' [Hh' Eh]]]] Eb]].
    unfold mutual_partner. rewrite U.
    rewrite (is_best_best _ _ _ Hb), (is_best_best _ _ _ Hh').
    apply Nat.eqb_eq in Eh. rewrite Eh. now subst.
Qed.

Lemma mutually_best_unique g e b1 b2 :
  mutually_best g e b1 -> mutually_best g e b2 -> b1 = b2.
Proof.
  intros [_ [H1 _]] [_ [H2 _]]. eapply is_best_unique; eauto.
Qed.

(** ** A round, and the whole loop, have one outcome *)

Lemma entry_round_fun g e e1 e2 :
  entry_round g e e1 -> entry_round g e e2 -> e1 = e2.
Proof.
  intros H1 H2. destruct H1 as [e b1 M1|e K1]; inversion H2 as [? b2 M2|? K2]; subst.
  - now rewrite (mutually_best_unique _ _ _ _ M1 M2).
  - exfalso. eapply K2; eauto.
  - exfalso. eapply K1; eauto.
  - reflexivity.
Qed.

Lemma Forall2_fun {A B : Type} (R : A -> B -> Prop) :
  (forall x y1 y2, R x y1 -> R x y2 -> y1 = y2) ->
  forall l l1 l2, Forall2 R l l1 -> Forall2 R l l2 -> l1 = l2.
Proof.
  intros HR l l1 l2 H1. revert l2.
  induction H1 as [|x y l l1 Hxy H1 IH]; intros l2 H2;
    inversion H2; subst; auto.
  f_equal; eauto.
Qed.

Lemma round_rel_fun g g1 g2 : round_rel g g1 -> round_rel g g2 -> g1 = g2.
Proof. apply Forall2_fun. apply entry_round_fun. Qed.

Lemma commit_round_rel g : round_rel g (commit_round g).
Proof.
  unfold round_rel, commit_round.
  assert (H : forall l, Forall2 (entry_round g) l
              (map (fun e => match mutual_partner g e with
                             | Some p => set_partner p e
                             | None => e
                             end) l)); [|apply H].
  intros l. induction l as [|e l IH]; simpl; constructor; auto.
  destruct (mutual_partner g e) as [p|] eqn:M.
  - apply mutual_partner_iff in M. destruct M as [b [Hb <-]].
    now constructor.
  - constructor. intros b Hb.
    assert (M' : mutual_partner g e = Some (hid b))
      by (apply mutual_partner_iff; eauto).
    congruence.
Qed.

Lemma has_open_iff g : has_open g = false <-> resolved g.
Proof.
  unfold has_open, resolved, open_hit, is_open. split.
  - intros H e Hin [U Hr].
    assert (Hex : existsb (fun e0 => is_unpaired e0 &&
                   match remaining g e0 with [] => false | _ => true end) g = true).
    { apply existsb_exists. exists e. split; auto. rewrite U.
      destruct (remaining g e); [contradiction|reflexivity]. }
    congruence.
  - intros H. apply not_true_iff_false. intros Hex.
    apply existsb_exists in Hex. destruct Hex as [e [Hin Ho]].
    apply andb_true_iff in Ho. destruct Ho as [U Hr].
    apply (H e Hin). split; auto. intros E. rewrite E in Hr. discriminate.
Qed.

Lemma filter_nil {A : Type} (f : A -> bool) l :
  filter f l = [] <-> forall x, In x l -> f x = false.
Proof.
  induction l as [|x l IH]; simpl.
  - split; auto. intros _ x [].
  - destruct (f x) eqn:F; split.
    + discriminate.
    + intros H. specialize (H x (or_introl eq_refl)). congruence.
    + intros H y [<-|Hy]; auto. now apply IH.
    + intros H. apply IH. auto.
Qed.

Lemma unproductive_iff g : new_pair_count g = 0 <-> unproductive g.
Proof.
  unfold new_pair_count, unproductive, new_pair, anchors.
  rewrite length_zero_iff_nil, filter_nil. split.
  - intros H e b [Hin [Hm Hlt]]. specialize (H e Hin).
    assert (M : mutual_partner g e = Some (hid b))
      by (apply mutual_partner_iff; eauto).
    rewrite M in H. apply Nat.ltb_ge in H. lia.
  - intros H e Hin. destruct (mutual_partner g e) as [p|] eqn:M; auto.
    apply Nat.ltb_ge. apply mutual_partner_iff in M.
    destruct M as [b [Hb <-]].
    destruct (Nat.le_gt_cases (hid b) (hid e)) as [Hle|Hgt]; auto.
    exfalso. apply (H e b). auto.
Qed.

Lemma resolves_fun R stale g f1 :
  resolves R stale g f1 -> forall f2, resolves R stale g f2 -> f1 = f2.
Proof.
  induction 1 as [stale g Hr|stale g Hr Hp|stale g final Hr Hp Hu Hrest IH
                 |stale g g' final Hr Hp Hu Hround Hrest IH];
    intros f2 H2; inversion H2; subst; auto;
    try contradiction; try lia.
  assert (g' = g'0) by (eapply round_rel_fun; eauto). subst. auto.
Qed.

Lemma pair_loop_resolves R fuel : forall s s',
  pair_loop fuel R s = Some s' -> resolves R (snd s) (fst s) (fst s').
Proof.
  induction fuel as [|fuel IH]; intros s s' H; [discriminate|].
  simpl in H. destruct (halted R s) eqn:Hh.
  - inversion H; subst. unfold halted in Hh.
    destruct (has_open (fst s')) eqn:Ho.
    + simpl in Hh. apply Z.leb_le in Hh. apply rs_patience; auto.
      intros Hr. apply has_open_iff in Hr. congruence.
    + apply rs_resolved. now apply has_open_iff.
  - unfold halted in Hh. apply orb_false_iff in Hh. destruct Hh as [Ho Hp].
    apply negb_false_iff in Ho. apply Z.leb_gt in Hp.
    assert (Hnr : ~ resolved (fst s))
      by (intros Hr; apply has_open_iff in Hr; congruence).
    apply IH in H. unfold step in H.
    destruct (new_pair_count (fst s)) eqn:N; simpl in H.
    + eapply rs_stale; eauto. now apply unproductive_iff.
    + eapply rs_pair; eauto.
      * intros Hu. apply unproductive_iff in Hu. congruence.
      * apply commit_round_rel.
Qed.

Lemma pair_groups_resolves R idx : forall idx',
  pair_groups R idx = Some idx' -> index_resolves R idx idx'.
Proof.
  unfold index_resolves.
  induction idx as [|[k g] rest IH]; simpl; intros idx' H.
  - inversion H. constructor.
  - destruct (pair_group R g) as [g'|] eqn:G; [|discriminate].
    destruct (pair_groups R rest) as [rest'|] eqn:Rr; [|discriminate].
    inversion H; subst. constructor; auto. simpl. split; auto.
    unfold pair_group in G.
    destruct (pair_loop (loop_fuel R g) R (g, 0)) as [s|] eqn:L; [|discriminate].
    inversion G; subst. apply (pair_loop_resolves _ _ _ _ L).
Qed.

Lemma index_resolves_fun R idx i1 i2 :
  index_resolves R idx i1 -> index_resolves R idx i2 -> i1 = i2.
Proof.
  apply Forall2_fun. intros [k g] [k1 g1] [k2 g2]; simpl.
  intros [<- H1] [<- H2]. f_equal. eapply resolves_fun; eauto.
Qed.

(** C2.  The pairing engine is deterministic.  For every hit list and
    configuration (maxDist, stableReps, prefix), any two runs of
    candidate search and pairing on the same input yield the same pairs,
    the same unpaired ids and the same element names; and for every
    well-formed hit list a run exists, the one the executable engine
    computes. *)
Theorem engine_deterministic (maxDist : option Z) (stableReps : Z)
  (pfx : option string) (hits : list HitRecord) :
  (forall out1 out2,
     engine_run maxDist stableReps pfx hits out1 ->
     engine_run maxDist stableReps pfx hits out2 ->
     out1 = out2) /\
  (forallb well_formed hits = true ->
   exists idx' pairs leftover,
     run_engine maxDist stableReps hits = inr (Some (idx', pairs, leftover)) /\
     engine_run maxDist stableReps pfx hits (output_of pfx idx') /\
     out_paired (output_of pfx idx') = pairs /\
     out_unpaired (output_of pfx idx') = leftover).
Proof.
  split.
  - intros o1 o2 [ia [ia' [Ha [Ra ->]]]] [ib [ib' [Hb [Rb ->]]]].
    rewrite Ha in Hb. inversion Hb; subst.
    now rewrite (index_resolves_fun _ _ _ _ Ra Rb).
  - intros Hwf. destruct (table2dict_total hits Hwf) as [idx Ht].
    destruct (run_engine_ok maxDist stableReps hits idx Ht)
      as [idx' [Hg [Hrun _]]].
    exists idx', (all_pairs idx'), (all_unpaired idx').
    split; [exact Hrun|]. split; [|split; reflexivity].
    exists idx, idx'. repeat split; auto. now apply pair_groups_resolves.
Qed.

(** ** The driver: shape of a run *)

Lemma missing_fold w l : forall acc,
  fold_left (fun acc tool => acc ++ missing_tool w tool) l acc =
  acc ++ filter (fun t => negb (on_path w t)) l.
Proof.
  induction l as [|t l IH]; simpl; intros acc.
  - now rewrite app_nil_r.
  - rewrite IH. unfold missing_tool. destruct (on_path w t); simpl.
    + now rewrite app_nil_r.
    + now rewrite <- app_assoc.
Qed.

Lemma missing_tools_filter args w :
  missing_tools args w =
  filter (fun t => negb (on_path w t)) (required_tools args).
Proof. unfold missing_tools. now rewrite missing_fold. Qed.

Lemma check_tools_trace args w :
  check_tools args w = (tool_warning (missing_tools args w), inl tt).
Proof.
  unfold check_tools, tool_warning, when.
  destruct (missing_tools args w); reflexivity.
Qed.

Lemma search_result args w :
  snd (search args w) =
    (if hits_found args w then inl (hit_table args w) else inr (Exited 1%Z)) /\
  forallb is_search_event (fst (search args w)) = true /\
  (hits_found args w = false ->
   exists t, fst (search args w) =
     t ++ [EvPrint ("No hits found in " ++ result_dir w ++ " . Quitting.")]).
Proof.
  unfold search, hits_found, hit_table.
  destruct (useBowtie2 args); simpl.
  - repeat split. discriminate.
  - destruct (truthy (alnDir args) || truthy (alnFile args));
      destruct (tab_files w); simpl; repeat split; try discriminate.
    + intros _. eexists [_; _]. reflexivity.
    + intros _. eexists [_]. reflexivity.
Qed.

Lemma run_pairing_total args idx :
  exists idx', run_pairing args idx =
    Some (idx', all_pairs idx', all_unpaired idx').
Proof.
  unfold run_pairing.
  destruct (iterateGetPairs_total (parseHits idx (maxdist args)) (stableReps args))
    as [idx' [_ H]]. eauto.
Qed.

Lemma main_no_hits args w :
  hits_found args w = false ->
  main args w = (prelude args w, inr (Exited 1%Z)).
Proof.
  intros Hf. destruct (search_result args w) as [Hs _]. rewrite Hf in Hs.
  unfold main, prelude. rewrite check_tools_trace.
  destruct (search args w) as [ts [ht|o]]; simpl in Hs; [discriminate|].
  inversion Hs; subst o. reflexivity.
Qed.

Lemma main_malformed args w e :
  hits_found args w = true ->
  table2dict (hit_table args w) = inl e ->
  main args w =
    (prelude args w ++ [EvTable2dict (hit_table args w)], inr (Raised e)).
Proof.
  intros Hf Ht. destruct (search_result args w) as [Hs _]. rewrite Hf in Hs.
  unfold main, prelude. rewrite check_tools_trace.
  destruct (search args w) as [ts [ht|o]]; simpl in Hs; [|discriminate].
  inversion Hs; subst ht. simpl. rewrite Ht. simpl.
  rewrite <- !app_assoc. reflexivity.
Qed.

Lemma main_nopairing args w idx :
  hits_found args w = true ->
  table2dict (hit_table args w) = inr idx ->
  nopairing args = true ->
  main args w =
    (prelude args w
     ++ [EvTable2dict (hit_table args w);
         EvWriteTIRs (checked_outDir w)
           (hit_table args w) (maxeval args) None]
     ++ cleanup args w,
     inr (Exited 1%Z)).
Proof.
  intros Hf Ht Hn. destruct (search_result args w) as [Hs _]. rewrite Hf in Hs.
  unfold main, prelude, cleanup. rewrite check_tools_trace.
  destruct (search args w) as [ts [ht|o]]; simpl in Hs; [|discriminate].
  inversion Hs; subst ht. simpl. rewrite Ht, Hn. simpl.
  destruct (keeptemp args); simpl; rewrite <- !app_assoc; reflexivity.
Qed.

Lemma main_full args w idx idx' pairs leftover :
  hits_found args w = true ->
  table2dict (hit_table args w) = inr idx ->
  nopairing args = false ->
  run_pairing args idx = Some (idx', pairs, leftover) ->
  main args w =
    (prelude args w
     ++ [EvTable2dict (hit_table args w);
         EvParseHits (maxdist args);
         EvIterateGetPairs (stableReps args);
         EvWriteTIRs (checked_outDir w)
           (hit_table args w) (maxeval args)
           (prefix args);
         EvFetchElements pairs;
         EvWriteElements (checked_outDir w) (fetchElements pairs idx')
           (prefix args)]
     ++ gff_events args w idx' pairs
     ++ cleanup args w,
     inl tt).
Proof.
  intros Hf Ht Hn Hr. destruct (search_result args w) as [Hs _].
  rewrite Hf in Hs.
  unfold main, prelude, cleanup, gff_events, annotate.
  rewrite check_tools_trace.
  destruct (search args w) as [ts [ht|o]]; simpl in Hs; [|discriminate].
  inversion Hs; subst ht. simpl. rewrite Ht, Hn. simpl. rewrite Hr. simpl.
  destruct (truthy (gffOut args)); destruct (report_unpaired (reportTIR args));
    destruct (keeptemp args); simpl; rewrite <- !app_assoc; reflexivity.
Qed.

Lemma prelude_setup args w : forallb is_setup (prelude args w) = true.
Proof.
  unfold prelude. rewrite !forallb_app.
  destruct (search_result args w) as [_ [Hs _]].
  apply andb_true_iff. split; [|apply andb_true_iff; split].
  - unfold tool_warning. destruct (missing_tools args w); reflexivity.
  - reflexivity.
  - apply forallb_forall. intros ev Hev.
    rewrite forallb_forall in Hs. specialize (Hs ev Hev).
    destruct ev; auto; discriminate.
Qed.

Lemma setup_filter (P : Event -> bool) args w :
  (forall ev, is_setup ev = true -> P ev = false) ->
  filter P (prelude args w) = [].
Proof.
  intros HP. apply filter_nil. intros ev Hev. apply HP.
  pose proof (prelude_setup args w) as H. rewrite forallb_forall in H. auto.
Qed.

Lemma setup_not_pairing ev : is_setup ev = true -> is_pairing_stage ev = false.
Proof. destruct ev; simpl; auto; discriminate. Qed.

Lemma setup_not_output ev : is_setup ev = true -> is_output ev = false.
Proof. destruct ev; simpl; auto; discriminate. Qed.

Lemma setup_not_rmtree ev : is_setup ev = true -> is_rmtree ev = false.
Proof. destruct ev; simpl; auto; discriminate. Qed.

Lemma prelude_keeps_temp args w : existsb is_rmtree (prelude args w) = false.
Proof.
  apply not_true_iff_false. intros H. apply existsb_exists in H.
  destruct H as [ev [Hin Hr]].
  pose proof (prelude_setup args w) as Hs. rewrite forallb_forall in Hs.
  rewrite (setup_not_rmtree ev (Hs ev Hin)) in Hr. discriminate.
Qed.

Lemma cleanup_removes args w :
  existsb is_rmtree (cleanup args w) = negb (keeptemp args).
Proof. unfold cleanup. destruct (keeptemp args); reflexivity. Qed.

Lemma gff_keeps_temp args w idx pairs :
  existsb is_rmtree (gff_events args w idx pairs) = false.
Proof.
  unfold gff_events. destruct (truthy (gffOut args)); auto.
  destruct (report_unpaired (reportTIR args)); reflexivity.
Qed.

(** The four ways a run of [main] can go. *)
Lemma main_cases args w :
  (hits_found args w = false /\
   main args w = (prelude args w, inr (Exited 1%Z))) \/
  (hits_found args w = true /\ exists e,
   table2dict (hit_table args w) = inl e /\
   main args w =
     (prelude args w ++ [EvTable2dict (hit_table args w)], inr (Raised e))) \/
  (hits_found args w = true /\ nopairing args = true /\ exists idx,
   table2dict (hit_table args w) = inr idx /\
   main args w =
     (prelude args w
      ++ [EvTable2dict (hit_table args w);
          EvWriteTIRs (checked_outDir w)
            (hit_table args w) (maxeval args) None]
      ++ cleanup args w,
      inr (Exited 1%Z))) \/
  (hits_found args w = true /\ nopairing args = false /\ exists idx idx',
   table2dict (hit_table args w) = inr idx /\
   run_pairing args idx = Some (idx', all_pairs idx', all_unpaired idx') /\
   main args w =
     (prelude args w
      ++ [EvTable2dict (hit_table args w);
          EvParseHits (maxdist args);
          EvIterateGetPairs (stableReps args);
          EvWriteTIRs (checked_outDir w)
            (hit_table args w) (maxeval args)
            (prefix args);
          EvFetchElements (all_pairs idx');
          EvWriteElements (checked_outDir w)
            (fetchElements (all_pairs idx') idx') (prefix args)]
      ++ gff_events args w idx' (all_pairs idx')
      ++ cleanup args w,
      inl tt)).
Proof.
  destruct (hits_found args w) eqn:Hf.
  - right. destruct (table2dict (hit_table args w)) as [e|idx] eqn:Ht.
    + left. split; auto. exists e. split; auto. now apply main_malformed.
    + right. destruct (nopairing args) eqn:Hn.
      * left. repeat split; auto. exists idx. split; auto.
        now apply (main_nopairing args w idx).
      * right. repeat split; auto.
        destruct (run_pairing_total args idx) as [idx' Hr].
        exists idx, idx'. repeat split; auto. eapply main_full; eauto.
  - left. split; auto. now apply main_no_hits.
Qed.

(** ** Missing tools *)

Lemma main_after_tools args w :
  main args w =
    (tool_warning (missing_tools args w) ++ fst (main args (all_on_path w)),
     snd (main args (all_on_path w))).
Proof.
  unfold main. rewrite !check_tools_trace.
  assert (E : missing_tools args (all_on_path w) = []).
  { rewrite missing_tools_filter. apply filter_nil. reflexivity. }
  rewrite E. destruct w. reflexivity.
Qed.

Lemma main_calls_dochecks args w :
  exists rest, fst (main args (all_on_path w)) = EvDoChecks args :: rest.
Proof.
  unfold main. rewrite check_tools_trace.
  assert (E : missing_tools args (all_on_path w) = []).
  { rewrite missing_tools_filter. apply filter_nil. reflexivity. }
  rewrite E. cbn [tool_warning bind emit fst snd app]. eauto.
Qed.

(** C8.  Missing external tools never abort the run.  The seven
    programs checked are those configured for hmmpress, nhmmer, hmmbuild,
    bowtie2, bowtie2-build, samtools and bedtools (these names by
    default).  Whatever subset of them is absent from PATH, the run is
    the run with every tool present, preceded only by the two-line
    warning that names the missing ones, joined by ", " (and by nothing
    when none is missing): same calls, same way of ending, and the next
    call, [tirmite.dochecks], is always made. *)
Theorem missing_tools_never_abort (args : Args) (w : World) :
  let missing :=
    filter (fun t => negb (on_path w t))
      [hmmpress args; nhmmer args; hmmbuild args; bowtie2 args;
       bt2build args; samtools args; bedtools args] in
  trace (main args w) =
    match missing with
    | [] => []
    | _ =>
        [EvPrint ("WARNING: Some tools required by tirmite could not be found: "
                  ++ String.concat ", " missing);
         EvPrint "You may need to install them to use all features."]
    end ++ trace (main args (all_on_path w)) /\
  outcome (main args w) = outcome (main args (all_on_path w)) /\
  (exists rest, trace (main args (all_on_path w)) = EvDoChecks args :: rest) /\
  (forall genomePath hmm,
     [hmmpress (default_args genomePath hmm); nhmmer (default_args genomePath hmm);
      hmmbuild (default_args genomePath hmm); bowtie2 (default_args genomePath hmm);
      bt2build (default_args genomePath hmm); samtools (default_args genomePath hmm);
      bedtools (default_args genomePath hmm)]
     = ["hmmpress"; "nhmmer"; "hmmbuild"; "bowtie2"; "bowtie2-build";
        "samtools"; "bedtools"]%string).
Proof.
  cbn zeta.
  change [hmmpress args; nhmmer args; hmmbuild args; bowtie2 args;
          bt2build args; samtools args; bedtools args]
    with (required_tools args).
  rewrite <- missing_tools_filter.
  change (match missing_tools args w with
          | [] => []
          | _ :: _ =>
              [EvPrint ("WARNING: Some tools required by tirmite could not be found: "
                        ++ String.concat ", " (missing_tools args w));
               EvPrint "You may need to install them to use all features."]
          end)
    with (tool_warning (missing_tools args w)).
  rewrite (main_after_tools args w). unfold trace, outcome.
  cbn [fst snd]. split; [reflexivity|]. split; [reflexivity|].
  split; [apply main_calls_dochecks|]. reflexivity.
Qed.

(** ** Early exits and the temporary directory *)

Lemma no_hits_found args w :
  useBowtie2 args = false -> tab_files w = [] -> hits_found args w = false.
Proof. unfold hits_found. intros -> ->. reflexivity. Qed.

Lemma nopairing_run args w idx :
  nopairing args = true -> hits_found args w = true ->
  table2dict (hit_table args w) = inr idx ->
  outcome (main args w) = Exited 1%Z /\
  trace (main args w) =
    prelude args w
    ++ [EvTable2dict (hit_table args w);
        EvWriteTIRs (checked_outDir w)
          (hit_table args w) (maxeval args) None]
    ++ cleanup args w /\
  removes_temp (main args w) = negb (keeptemp args) /\
  filter is_pairing_stage (trace (main args w)) = [].
Proof.
  intros Hn Hf Ht. unfold removes_temp, trace, outcome.
  rewrite (main_nopairing args w idx Hf Ht Hn). cbn [fst snd].
  repeat split.
  - rewrite !existsb_app, prelude_keeps_temp, cleanup_removes. reflexivity.
  - rewrite !filter_app, (setup_filter _ _ _ setup_not_pairing).
    unfold cleanup. destruct (keeptemp args); reflexivity.
Qed.

Lemma no_hits_run args w :
  hits_found args w = false ->
  outcome (main args w) = Exited 1%Z /\
  (exists t, trace (main args w) =
     t ++ [EvPrint ("No hits found in " ++ result_dir w ++ " . Quitting.")]) /\
  filter is_output (trace (main args w)) = [] /\
  filter is_pairing_stage (trace (main args w)) = [] /\
  removes_temp (main args w) = false.
Proof.
  intros Hf. unfold removes_temp, trace, outcome.
  rewrite (main_no_hits args w Hf). cbn [fst snd]. repeat split.
  - destruct (search_result args w) as [_ [_ Hlast]].
    destruct (Hlast Hf) as [t Ht]. unfold prelude. rewrite Ht.
    eexists. rewrite !app_assoc. reflexivity.
  - apply setup_filter, setup_not_output.
  - apply setup_filter, setup_not_pairing.
  - apply prelude_keeps_temp.
Qed.

(** C10.  The temporary directory is removed exactly when [--keeptemp]
    is unset, both when the run completes and on the [--nopairing] early
    exit; on the no-hits early exit (no [.tab] result file) the process
    exits with status 1 without removing it, whatever [--keeptemp]
    says. *)
Theorem temp_dir_removal (args : Args) (w : World) :
  (outcome (main args w) = Returned ->
   removes_temp (main args w) = negb (keeptemp args) /\
   exists t, trace (main args w) = t ++ cleanup args w /\
             existsb is_rmtree t = false) /\
  (forall idx, nopairing args = true -> hits_found args w = true ->
     table2dict (hit_table args w) = inr idx ->
     outcome (main args w) = Exited 1%Z /\
     removes_temp (main args w) = negb (keeptemp args) /\
     exists t, trace (main args w) = t ++ cleanup args w /\
               existsb is_rmtree t = false) /\
  (useBowtie2 args = false -> tab_files w = [] ->
   outcome (main args w) = Exited 1%Z /\ removes_temp (main args w) = false).
Proof.
  split; [|split].
  - unfold removes_temp, trace, outcome.
    destruct (main_cases args w)
      as [[_ E]|[[_ [e [_ E]]]|[[_ [_ [idx [_ E]]]]|[_ [_ [idx [idx' [_ [_ E]]]]]]]]];
      rewrite E; cbn [fst snd]; try discriminate.
    intros _. split.
    + rewrite !existsb_app, prelude_keeps_temp, gff_keeps_temp, cleanup_removes.
      reflexivity.
    + eexists. rewrite !app_assoc. split; [reflexivity|].
      rewrite !existsb_app, prelude_keeps_temp, gff_keeps_temp. reflexivity.
  - intros idx Hn Hf Ht.
    destruct (nopairing_run args w idx Hn Hf Ht) as [Ho [Htr [Hr _]]].
    split; auto. split; auto. rewrite Htr.
    eexists. rewrite !app_assoc. split; [reflexivity|].
    rewrite !existsb_app, prelude_keeps_temp. reflexivity.
  - intros Hb Hl.
    destruct (no_hits_run args w (no_hits_found args w Hb Hl))
      as [Ho [_ [_ [_ Hr]]]]. auto.
Qed.

(** C9, as amended.  With [--nopairing] set a run never completes
    normally and never reaches the pairing, element-extraction or
    GFF-writing steps.  If the run gets past the search step (bowtie2
    mode, or HMM mode with at least one [.tab] result file) and the
    index builder accepts the hit table, it calls the TIR hit fasta
    writer with the hit table, removes the temp directory unless
    [--keeptemp], and ends with exit status 1.  In HMM mode without any
    [.tab] result file it ends at the no-hits exit instead: status 1,
    nothing written, temp directory kept. *)
Theorem nopairing_exit (args : Args) (w : World) :
  nopairing args = true ->
  (outcome (main args w) <> Returned /\
   filter is_pairing_stage (trace (main args w)) = []) /\
  (forall idx, hits_found args w = true ->
     table2dict (hit_table args w) = inr idx ->
     outcome (main args w) = Exited 1%Z /\
     trace (main args w) =
       prelude args w
       ++ [EvTable2dict (hit_table args w);
           EvWriteTIRs (checked_outDir w)
             (hit_table args w) (maxeval args) None]
       ++ cleanup args w /\
     removes_temp (main args w) = negb (keeptemp args)) /\
  (useBowtie2 args = false -> tab_files w = [] ->
   outcome (main args w) = Exited 1%Z /\
   filter is_output (trace (main args w)) = [] /\
   removes_temp (main args w) = false).
Proof.
  intros Hn. split; [|split].
  - unfold trace, outcome.
    destruct (main_cases args w)
      as [[_ E]|[[_ [e [_ E]]]|[[_ [_ [idx [_ E]]]]|[_ [Hn' _]]]]];
      try congruence; rewrite E; cbn [fst snd]; (split; [discriminate|]);
      rewrite ?filter_app, (setup_filter _ _ _ setup_not_pairing); auto.
    unfold cleanup. destruct (keeptemp args); reflexivity.
  - intros idx Hf Ht.
    destruct (nopairing_run args w idx Hn Hf Ht) as [Ho [Htr [Hr _]]]. auto.
  - intros Hb Hl.
    destruct (no_hits_run args w (no_hits_found args w Hb Hl))
      as [Ho [_ [Hw [_ Hr]]]]. auto.
Qed.

(** C9, the claim as stated fails: with [--nopairing] set, [--keeptemp]
    unset, HMM mode and no [.tab] result file, the run writes no TIR
    fasta output and leaves the temp directory in place. *)
Lemma nopairing_without_hits_writes_nothing :
  nopairing (args_nopairing None false) = true /\
  keeptemp (args_nopairing None false) = false /\
  useBowtie2 (args_nopairing None false) = false /\
  tab_files world_without_hits = [] /\
  existsb is_output (trace (main (args_nopairing None false) world_without_hits))
    = false /\
  removes_temp (main (args_nopairing None false) world_without_hits) = false /\
  outcome (main (args_nopairing None false) world_without_hits) = Exited 1%Z.
Proof. repeat split. Qed.

(** C5, as amended.  When no nhmmer result file exists after the search
    step, the run prints the message "No hits found in <resultDir> .
    Quitting." as its last action and ends through [sys.exit(1)]: no
    exception is raised and nothing is written, but the exit status is
    1. *)
Theorem no_hits_exit (args : Args) (w : World) :
  useBowtie2 args = false -> tab_files w = [] ->
  outcome (main args w) = Exited 1%Z /\
  (exists t, trace (main args w) =
     t ++ [EvPrint ("No hits found in " ++ result_dir w ++ " . Quitting.")]) /\
  filter is_output (trace (main args w)) = [].
Proof.
  intros Hb Hl.
  destruct (no_hits_run args w (no_hits_found args w Hb Hl))
    as [Ho [Hlast [Hw _]]]. auto.
Qed.

(** C5, the claim as stated fails: on the default arguments with no
    [.tab] result file the process ends with exit status 1, which is not
    a clean (status 0) exit. *)
Lemma no_hits_exit_is_not_clean :
  useBowtie2 sample_args = false /\
  tab_files world_without_hits = [] /\
  outcome (main sample_args world_without_hits) = Exited 1%Z /\
  ~ clean_exit (outcome (main sample_args world_without_hits)).
Proof.
  repeat split. intros [H|H]; discriminate H.
Qed.

(** ** The prefix handed to the writers *)

Lemma prelude_no_writer args w : writer_prefixes (prelude args w) = [].
Proof.
  unfold writer_prefixes. apply flat_map_nil. intros ev Hev.
  pose proof (prelude_setup args w) as H. rewrite forallb_forall in H.
  specialize (H ev Hev). destruct ev; simpl in *; auto; discriminate.
Qed.

Lemma writer_prefixes_app t1 t2 :
  writer_prefixes (t1 ++ t2) = writer_prefixes t1 ++ writer_prefixes t2.
Proof. apply flat_map_app. Qed.

Lemma cleanup_no_writer args w : writer_prefixes (cleanup args w) = [].
Proof. unfold cleanup. destruct (keeptemp args); reflexivity. Qed.

(** On the path with pairing every writer call receives [args.prefix]. *)
Lemma pairing_writer_prefix args w p :
  nopairing args = false ->
  In p (writer_prefixes (trace (main args w))) -> p = prefix args.
Proof.
  intros Hn. unfold trace.
  destruct (main_cases args w)
    as [[_ E]|[[_ [e [_ E]]]|[[_ [Hn' _]]|[_ [_ [idx [idx' [_ [_ E]]]]]]]]];
    try congruence; rewrite E; cbn [fst];
    rewrite ?writer_prefixes_app, ?prelude_no_writer, ?cleanup_no_writer;
    simpl; try tauto.
  unfold gff_events. destruct (truthy (gffOut args));
    destruct (report_unpaired (reportTIR args)); simpl; intuition congruence.
Qed.

(** On the hit-only path the one writer call receives no prefix, whatever
    [args.prefix] is. *)
Lemma nopairing_writer_prefix args w idx :
  nopairing args = true -> hits_found args w = true ->
  table2dict (hit_table args w) = inr idx ->
  writer_prefixes (trace (main args w)) = [None].
Proof.
  intros Hn Hf Ht. unfold trace.
  rewrite (main_nopairing args w idx Hf Ht Hn). cbn [fst].
  rewrite !writer_prefixes_app, prelude_no_writer, cleanup_no_writer.
  reflexivity.
Qed.

(** C4 fails on the code.  Run with [--prefix run1]: on the path with
    pairing the three writer calls (TIR fasta, element fasta, GFF3) all
    receive the prefix, but with [--nopairing] the TIR fasta writer is
    called without it. *)
Theorem prefix_lost_without_pairing :
  prefix (args_nopairing (Some "run1"%string) false) = Some "run1"%string /\
  writer_prefixes
    (trace (main (args_nopairing (Some "run1"%string) false) world_with_hits))
    = [None] /\
  writer_prefixes (trace (main (args_gff (Some "run1"%string)) world_with_hits))
    = [Some "run1"%string; Some "run1"%string; Some "run1"%string].
Proof. repeat split. Qed.

(** ** The e-value threshold only filters the output *)










(** ** The scenarios of the specification, run on the model *)

(** Scenario A: two opposite-strand hits 50 bases apart, [maxDist = 200]. *)
Example scenario_simple_pair :
  partition_of (run_engine (Some 200%Z) 0
                  [hit_at 0 10 Plus (1 # 1000); hit_at 60 70 Minus (1 # 1000)])
  = Some ([mkPair 0 1 "chr1" 0 70], []).
Proof. reflexivity. Qed.

(** Scenario B: the same hits 500 bases apart. *)
Example scenario_distance_exceeded :
  partition_of (run_engine (Some 200%Z) 0
                  [hit_at 0 10 Plus (1 # 1000); hit_at 510 520 Minus (1 # 1000)])
  = Some ([], [0; 1]).
Proof. reflexivity. Qed.

(** Scenario C: three hits on the plus strand. *)
Example scenario_same_strand :
  partition_of (run_engine (Some 200%Z) 0
                  [hit_at 0 10 Plus (1 # 1000); hit_at 60 70 Plus (1 # 1000);
                   hit_at 120 130 Plus (1 # 1000)])
  = Some ([], [0; 1; 2]).
Proof. reflexivity. Qed.

(** Scenario D: B and C both in range of A, B with the better e-value. *)
Example scenario_competing_candidates :
  partition_of (run_engine (Some 200%Z) 0
                  [hit_at 0 10 Plus (1 # 1000); hit_at 100 110 Minus (1 # 100000);
                   hit_at 40 50 Minus (1 # 100)])
  = Some ([mkPair 0 1 "chr1" 0 110], [2]).
Proof. reflexivity. Qed.

(** A record with [start >= end] is rejected by the index builder. *)
Example scenario_malformed_hit :
  run_engine None 0 [hit_at 0 10 Plus (1 # 1000); hit_at 70 60 Minus (1 # 1000)]
  = inl (MalformedHitError 1).
Proof. reflexivity. Qed.

(** The defaults of [mainArgs]: no distance bound, no extra patience,
    e-value threshold 0.001, pairing on, temp directory removed. *)
Example default_configuration :
  maxdist sample_args = None /\ stableReps sample_args = 0%Z /\
  maxeval sample_args = (1 # 1000)%Q /\ nopairing sample_args = false /\
  keeptemp sample_args = false /\ prefix sample_args = None.
Proof. repeat split. Qed.

(** With bowtie2 and samtools off PATH the run starts with the warning
    and then goes on as usual. *)
Example run_with_missing_tools :
  trace (main sample_args world_missing_tools) =
    [EvPrint "WARNING: Some tools required by tirmite could not be found: bowtie2, samtools";
     EvPrint "You may need to install them to use all features."]
    ++ trace (main sample_args world_with_hits) /\
  outcome (main sample_args world_missing_tools) = Returned.
Proof. split; reflexivity. Qed.

(** ** The statements at concrete inputs *)

Lemma engine_partition_witness :
  forallb well_formed sample_hits = true /\
  (exists idx' pairs leftover,
     run_engine (Some 1000%Z) 0 sample_hits = inr (Some (idx', pairs, leftover))) /\
  run_engine (Some 1000%Z) 0 sample_hits =
    inr (Some (sample_final, [sample_pair], [1; 3])) /\
  forall i,
    (i < List.length sample_hits -> in_one_set i [sample_pair] [1; 3]) /\
    (List.length sample_hits <= i ->
     pair_count i [sample_pair] = 0 /\ count_occ Nat.eq_dec [1; 3] i = 0).
Proof.
  split; [reflexivity|]. split.
  - apply (proj1 (engine_partition (Some 1000%Z) 0%Z sample_hits)). reflexivity.
  - split; [reflexivity|].
    apply (proj2 (engine_partition (Some 1000%Z) 0%Z sample_hits)
             sample_final [sample_pair] [1; 3]).
    reflexivity.
Defined.

Lemma engine_deterministic_witness :
  forallb well_formed sample_hits = true /\
  (exists idx' pairs leftover,
     run_engine (Some 1000%Z) 0 sample_hits = inr (Some (idx', pairs, leftover)) /\
     engine_run (Some 1000%Z) 0 (Some "run1"%string) sample_hits
       (output_of (Some "run1"%string) idx') /\
     out_paired (output_of (Some "run1"%string) idx') = pairs /\
     out_unpaired (output_of (Some "run1"%string) idx') = leftover) /\
  forall out,
    engine_run (Some 1000%Z) 0 (Some "run1"%string) sample_hits out ->
    out = mkOutput [sample_pair] [1; 3] ["run11"%string].
Proof.
  split; [reflexivity|]. split.
  - apply (proj2 (engine_deterministic (Some 1000%Z) 0%Z
                    (Some "run1"%string) sample_hits)).
    reflexivity.
  - intros out Hout.
    apply (proj1 (engine_deterministic (Some 1000%Z) 0%Z
                    (Some "run1"%string) sample_hits) out _ Hout).
    exists sample_index, sample_final. split; [reflexivity|].
    split; [|reflexivity]. apply pair_groups_resolves. reflexivity.
Defined.

Lemma distance_bound_witness :
  (run_engine (Some 1000%Z) 0 sample_hits =
     inr (Some (sample_final, [sample_pair], [1; 3])) /\
   In sample_pair [sample_pair] /\
   exists h h', nth_error sample_hits 0 = Some h /\
                nth_error sample_hits 2 = Some h' /\
                (gap h h' <= 1000)%Z) /\
  ((0 <= 5000)%Z /\
   exists idx' h h',
     run_engine None 0 (far_apart 5000) =
       inr (Some (idx', [mkPair 0 1 "chr1" 0 (20 + 5000)], [])) /\
     nth_error (far_apart 5000) 0 = Some h /\
     nth_error (far_apart 5000) 1 = Some h' /\
     gap h h' = 5000%Z).
Proof.
  split.
  - split; [reflexivity|]. split; [left; reflexivity|].
    apply (proj1 distance_bound sample_hits 1000%Z 0%Z sample_final
             [sample_pair] [1; 3] sample_pair).
    + reflexivity.
    + left. reflexivity.
  - split; [lia|].
    apply (proj2 distance_bound 5000%Z). lia.
Defined.

Lemma pairing_loop_terminates_witness :
  (0 <= 1)%Z /\
  exists n final,
    pair_group 1 sample_group = Some final /\
    final = fst (state_after n sample_group) /\
    (has_open final = false \/ stale_rounds 1 n sample_group) /\
    (forall k, k < n ->
       has_open (fst (state_after k sample_group)) = true /\
       ~ stale_rounds 1 k sample_group) /\
    ids final = ids sample_group /\
    (forall e, In e final -> status e <> paired ->
               In (hid e) (unpaired_of final)).
Proof.
  split; [lia|].
  apply (pairing_loop_terminates 1%Z sample_group). lia.
Defined.

Lemma no_hits_exit_witness :
  useBowtie2 sample_args = false /\
  tab_files world_without_hits = [] /\
  outcome (main sample_args world_without_hits) = Exited 1%Z /\
  (exists t, trace (main sample_args world_without_hits) =
     t ++ [EvPrint ("No hits found in " ++ result_dir world_without_hits
                    ++ " . Quitting.")]) /\
  filter is_output (trace (main sample_args world_without_hits)) = [].
Proof.
  split; [reflexivity|]. split; [reflexivity|].
  apply (no_hits_exit sample_args world_without_hits); reflexivity.
Defined.

Lemma nopairing_exit_witness :
  nopairing (args_nopairing (Some "run1"%string) false) = true /\
  hits_found (args_nopairing (Some "run1"%string) false) world_with_hits = true /\
  table2dict (hit_table (args_nopairing (Some "run1"%string) false) world_with_hits)
    = inr sample_index /\
  (outcome (main (args_nopairing (Some "run1"%string) false) world_with_hits)
     = Exited 1%Z /\
   trace (main (args_nopairing (Some "run1"%string) false) world_with_hits) =
     prelude (args_nopairing (Some "run1"%string) false) world_with_hits
     ++ [EvTable2dict sample_hits;
         EvWriteTIRs "out" sample_hits (1 # 1000) None]
     ++ [EvRmTree "out/temp"] /\
   removes_temp (main (args_nopairing (Some "run1"%string) false) world_with_hits)
     = true).
Proof.
  split; [reflexivity|]. split; [reflexivity|]. split; [reflexivity|].
  apply (proj1 (proj2 (nopairing_exit (args_nopairing (Some "run1"%string) false)
                         world_with_hits eq_refl)) sample_index); reflexivity.
Defined.

Lemma temp_dir_removal_witness :
  (outcome (main (args_gff None) world_with_hits) = Returned /\
   removes_temp (main (args_gff None) world_with_hits) = true /\
   exists t, trace (main (args_gff None) world_with_hits) =
               t ++ [EvRmTree "out/temp"] /\
             existsb is_rmtree t = false) /\
  (nopairing (args_nopairing None false) = true /\
   hits_found (args_nopairing None false) world_with_hits = true /\
   table2dict (hit_table (args_nopairing None false) world_with_hits)
     = inr sample_index /\
   outcome (main (args_nopairing None false) world_with_hits) = Exited 1%Z /\
   removes_temp (main (args_nopairing None false) world_with_hits) = true /\
   exists t, trace (main (args_nopairing None false) world_with_hits) =
               t ++ [EvRmTree "out/temp"] /\
             existsb is_rmtree t = false) /\
  (useBowtie2 (args_gff None) = false /\
   tab_files world_without_hits = [] /\
   outcome (main (args_gff None) world_without_hits) = Exited 1%Z /\
   removes_temp (main (args_gff None) world_without_hits) = false).
Proof.
  split; [|split].
  - split; [reflexivity|].
    apply (proj1 (temp_dir_removal (args_gff None) world_with_hits)).
    reflexivity.
  - split; [reflexivity|]. split; [reflexivity|]. split; [reflexivity|].
    apply (proj1 (proj2 (temp_dir_removal (args_nopairing None false)
                           world_with_hits)) sample_index); reflexivity.
  - split; [reflexivity|]. split; [reflexivity|].
    apply (proj2 (proj2 (temp_dir_removal (args_gff None) world_without_hits)));
      reflexivity.
Defined.


(* ===================================================================== *)
(** * Further properties of the driver *)
(* ===================================================================== *)

(** ** The calls of the search step *)

Lemma search_trace args w :
  fst (search args w) =
    (if useBowtie2 args then [EvIsFile (btTIR args)] else []) ++
    (if converts args
     then [EvConvertAlign (alnDir args) (alnFile args) (alnFormat args)
             (checked_tempDir w)]
     else []) ++
    [EvRunCmd (search_commands args w) (verbose args) (keeptemp args)] ++
    (if hits_found args w then [] else [EvPrint (no_hits_message w)]).
Proof.
  unfold search, search_commands, converts, hits_found, no_hits_message.
  destruct (useBowtie2 args); simpl; [reflexivity|].
  destruct (truthy (alnDir args) || truthy (alnFile args));
    destruct (tab_files w); reflexivity.
Qed.

Lemma main_split args w :
  exists rest, trace (main args w) = prelude args w ++ rest /\
               forallb is_late rest = true.
Proof.
  unfold trace.
  destruct (main_cases args w)
    as [[_ E]|[[_ [e [_ E]]]|[[_ [_ [idx [_ E]]]]
       |[_ [_ [idx [idx' [_ [_ E]]]]]]]]]; rewrite E; cbn [fst].
  - exists []. now rewrite app_nil_r.
  - eexists. split; reflexivity.
  - eexists. split; [reflexivity|]. unfold cleanup.
    destruct (keeptemp args); reflexivity.
  - eexists. split; [reflexivity|]. unfold cleanup, gff_events.
    destruct (truthy (gffOut args)); destruct (report_unpaired (reportTIR args));
      destruct (keeptemp args); reflexivity.
Qed.

Lemma late_filter (P : Event -> bool) rest :
  (forall ev, is_late ev = true -> P ev = false) ->
  forallb is_late rest = true -> filter P rest = [].
Proof.
  intros HP H. apply filter_nil. intros ev Hev. apply HP.
  rewrite forallb_forall in H. auto.
Qed.

Lemma warning_filter (P : Event -> bool) l :
  (forall s, P (EvPrint s) = false) -> filter P (tool_warning l) = [].
Proof.
  intros HP. unfold tool_warning. destruct l; simpl; auto.
  now rewrite !HP.
Qed.

(** X3.  Every run calls [tirmite.run_cmd] exactly once, with
    [--verbose] and [--keeptemp] passed on.  In bowtie2 mode the commands
    are bowtie2-build, bowtie2 and the bam-to-bed filter, and neither an
    alignment is converted nor an HMMER script composed, whatever
    [--alnDir], [--alnFile], [--hmmDir] and [--hmmFile] say; in HMM mode
    the one command is the HMMER script, alignments are converted exactly
    when [--alnDir] or [--alnFile] is a non-empty string, and the TIR
    fasta of bowtie2 is never checked. *)
Theorem one_search_per_run (args : Args) (w : World) :
  filter is_run_cmd (trace (main args w)) =
    [EvRunCmd (search_commands args w) (verbose args) (keeptemp args)] /\
  filter is_convert (trace (main args w)) =
    (if converts args
     then [EvConvertAlign (alnDir args) (alnFile args) (alnFormat args)
             (checked_tempDir w)]
     else []) /\
  filter is_isfile (trace (main args w)) =
    (if useBowtie2 args then [EvIsFile (btTIR args)] else []).
Proof.
  destruct (main_split args w) as [rest [E Hl]]. rewrite E.
  unfold prelude. rewrite search_trace, !filter_app.
  repeat split.
  - rewrite (late_filter is_run_cmd rest), warning_filter; auto;
      [|intros ev; destruct ev; simpl; auto; discriminate].
    destruct (useBowtie2 args); destruct (converts args);
      destruct (hits_found args w); reflexivity.
  - rewrite (late_filter is_convert rest), warning_filter; auto;
      [|intros ev; destruct ev; simpl; auto; discriminate].
    destruct (useBowtie2 args); destruct (converts args);
      destruct (hits_found args w); reflexivity.
  - rewrite (late_filter is_isfile rest), warning_filter; auto;
      [|intros ev; destruct ev; simpl; auto; discriminate].
    destruct (useBowtie2 args); destruct (converts args);
      destruct (hits_found args w); reflexivity.
Qed.

(** ** How a run ends and what it writes *)

Lemma table_accepted_inr args w idx :
  table2dict (hit_table args w) = inr idx -> table_accepted args w = true.
Proof. unfold table_accepted. now intros ->. Qed.

Lemma table_accepted_inl args w e :
  table2dict (hit_table args w) = inl e -> table_accepted args w = false.
Proof. unfold table_accepted. now intros ->. Qed.


(** X2.  The writer calls of a run, in order.  No writer is called
    when no hits are found or the hit table is rejected.  With
    [--nopairing] the one call is the TIR fasta writer, without prefix.
    Otherwise the TIR fasta writer and the element fasta writer are
    called, in this order and with [--prefix], followed by the GFF3
    writer exactly when [--gffOut] is a non-empty string.  On both paths
    the TIR writer is handed the output directory, the whole hit table
    and the e-value threshold. *)
Theorem writer_calls (args : Args) (w : World) :
  filter is_output (trace (main args w)) =
    if hits_found args w then
      match table2dict (hit_table args w) with
      | inl _ => []
      | inr idx =>
          if nopairing args then
            [EvWriteTIRs (checked_outDir w)
               (hit_table args w) (maxeval args)
               None]
          else
            match run_pairing args idx with
            | Some (idx', pairs, _) =>
                [EvWriteTIRs (checked_outDir w)
                   (hit_table args w)
                   (maxeval args) (prefix args);
                 EvWriteElements (checked_outDir w) (fetchElements pairs idx')
                   (prefix args)]
                ++ (if truthy (gffOut args)
                    then [gff_call args w idx' pairs] else [])
            | None => []
            end
      end
    else [].
Proof.
  unfold trace.
  destruct (main_cases args w)
    as [[Hf E]|[[Hf [e [Ht E]]]|[[Hf [Hn [idx [Ht E]]]]
       |[Hf [Hn [idx [idx' [Ht [Hr E]]]]]]]]]; rewrite E, Hf; cbn [fst];
    rewrite ?filter_app, (setup_filter _ _ _ setup_not_output).
  - reflexivity.
  - now rewrite Ht.
  - rewrite Ht, Hn. unfold cleanup. destruct (keeptemp args); reflexivity.
  - rewrite Ht, Hn, Hr. unfold cleanup, gff_events, gff_call, gff_path.
    destruct (truthy (gffOut args)); destruct (report_unpaired (reportTIR args));
      destruct (keeptemp args); reflexivity.
Qed.

(** X5.  [tirmite.fetchUnpaired] is called at most once, and exactly
    when the run completes with [--gffOut] a non-empty string and
    [--reportTIR] all or unpaired.  Without a GFF3 file it is never
    called, whatever [--reportTIR] is. *)
Theorem unpaired_fetched (args : Args) (w : World) :
  filter is_fetch_unpaired (trace (main args w)) =
    if completes args w && truthy (gffOut args)
       && report_unpaired (reportTIR args)
    then [EvFetchUnpaired] else [].
Proof.
  unfold trace, completes.
  assert (Hs : forall ev, is_setup ev = true -> is_fetch_unpaired ev = false)
    by (intros ev; destruct ev; simpl; auto; discriminate).
  destruct (main_cases args w)
    as [[Hf E]|[[Hf [e [Ht E]]]|[[Hf [Hn [idx [Ht E]]]]
       |[Hf [Hn [idx [idx' [Ht [Hr E]]]]]]]]]; rewrite E, Hf; cbn [fst];
    rewrite ?filter_app, (setup_filter _ _ _ Hs).
  - reflexivity.
  - now rewrite (table_accepted_inl _ _ _ Ht).
  - rewrite Hn, (table_accepted_inr _ _ _ Ht). unfold cleanup.
    destruct (keeptemp args); reflexivity.
  - rewrite Hn, (table_accepted_inr _ _ _ Ht). unfold cleanup, gff_events.
    destruct (truthy (gffOut args)); destruct (report_unpaired (reportTIR args));
      destruct (keeptemp args); reflexivity.
Qed.

Lemma rmtree_last t c :
  filter is_rmtree t = [] -> filter is_rmtree c = c ->
  filter is_rmtree (t ++ c) = c /\
  exists t', t ++ c = t' ++ filter is_rmtree (t ++ c) /\
             filter is_rmtree t' = [].
Proof.
  intros Ht Hc. rewrite filter_app, Ht, Hc. split; [reflexivity|].
  exists t. auto.
Qed.

(** X8.  The only directory a run ever removes is the temp directory
    returned by [tirmite.dochecks]; it does so at most once, as its very
    last call, and exactly when hits were found, the hit table was
    accepted and [--keeptemp] is unset.  A run that stops at the no-hits
    exit or on a rejected hit table leaves the temp directory in
    place. *)
Theorem temp_dir_only (args : Args) (w : World) :
  filter is_rmtree (trace (main args w)) =
    (if hits_found args w && table_accepted args w && negb (keeptemp args)
     then [EvRmTree (checked_tempDir w)] else []) /\
  exists t, trace (main args w) = t ++ filter is_rmtree (trace (main args w)) /\
            filter is_rmtree t = [].
Proof.
  assert (Hpre : forall t, filter is_rmtree (prelude args w ++ t) =
                           filter is_rmtree t).
  { intros t. now rewrite filter_app, (setup_filter _ _ _ setup_not_rmtree). }
  assert (Hc : filter is_rmtree (cleanup args w) = cleanup args w).
  { unfold cleanup. destruct (keeptemp args); reflexivity. }
  assert (Hv : cleanup args w =
               if negb (keeptemp args) then [EvRmTree (checked_tempDir w)]
               else []).
  { unfold cleanup. destruct (keeptemp args); reflexivity. }
  unfold trace.
  destruct (main_cases args w)
    as [[Hf E]|[[Hf [e [Ht E]]]|[[Hf [Hn [idx [Ht E]]]]
       |[Hf [Hn [idx [idx' [Ht [Hr E]]]]]]]]]; rewrite E, Hf; cbn [fst].
  - cbn [andb]. rewrite <- (app_nil_r (prelude args w)).
    apply (rmtree_last (prelude args w) []); auto.
    apply (setup_filter _ _ _ setup_not_rmtree).
  - rewrite (table_accepted_inl _ _ _ Ht), andb_false_r. cbn [andb].
    rewrite <- (app_nil_r (prelude args w ++ _)).
    apply (rmtree_last _ []); auto; now rewrite Hpre.
  - rewrite (table_accepted_inr _ _ _ Ht), app_assoc. cbn [andb].
    rewrite <- Hv. apply rmtree_last; auto; now rewrite Hpre.
  - rewrite (table_accepted_inr _ _ _ Ht), !app_assoc. cbn [andb].
    rewrite <- Hv. apply rmtree_last; auto.
    rewrite <- !app_assoc, Hpre. cbn [app filter is_rmtree].
    unfold gff_events. destruct (truthy (gffOut args));
      destruct (report_unpaired (reportTIR args)); reflexivity.
Qed.

(** ** The no-hits message *)

Lemma warning_is_not_no_hits l w :
  ~ In (EvPrint (no_hits_message w)) (tool_warning l).
Proof.
  unfold tool_warning, no_hits_message. destruct l; simpl; [tauto|].
  intros [H|[H|[]]]; discriminate H.
Qed.

Lemma hits_found_false args w :
  hits_found args w = false <-> useBowtie2 args = false /\ tab_files w = [].
Proof.
  unfold hits_found. destruct (useBowtie2 args); destruct (tab_files w);
    simpl; split; intros H; try tauto; try discriminate;
    destruct H; discriminate.
Qed.

(** X4.  The message "No hits found in <resultDir> . Quitting." is
    printed exactly when HMM mode finds no [.tab] result file.  The guard
    looks at result files, not at hits: in bowtie2 mode, and whenever a
    result file exists, the hit table is handed to the index builder even
    if it holds no hit at all. *)
Theorem no_hits_message_iff (args : Args) (w : World) :
  (In (EvPrint (no_hits_message w)) (trace (main args w)) <->
   useBowtie2 args = false /\ tab_files w = []) /\
  (hits_found args w = true ->
   In (EvTable2dict (hit_table args w)) (trace (main args w))).
Proof.
  split.
  - rewrite <- hits_found_false.
    destruct (main_split args w) as [rest [E Hl]]. rewrite E.
    unfold prelude. rewrite search_trace. split.
    + intros H. destruct (hits_found args w) eqn:Hf; auto. exfalso.
      repeat (apply in_app_or in H; destruct H as [H|H]).
      * eapply warning_is_not_no_hits; eauto.
      * destruct H as [H|[H|[]]]; discriminate H.
      * destruct (useBowtie2 args); [destruct H as [H|[]]; discriminate H|destruct H].
      * destruct (converts args); [destruct H as [H|[]]; discriminate H|destruct H].
      * destruct H as [H|[]]; discriminate H.
      * destruct H.
      * rewrite forallb_forall in Hl. specialize (Hl _ H). discriminate.
    + intros Hf. rewrite Hf. apply in_or_app. left.
      apply in_or_app. right. apply in_or_app. right.
      apply in_or_app. right. apply in_or_app. right.
      apply in_or_app. right. now left.
  - intros Hf. unfold trace.
    destruct (main_cases args w)
      as [[Hf' E]|[[_ [e [_ E]]]|[[_ [_ [idx [_ E]]]]
         |[_ [_ [idx [idx' [_ [_ E]]]]]]]]]; [congruence| | |];
      rewrite E; cbn [fst]; apply in_or_app; right; now left.
Qed.

(** ** The GFF3 file *)

Lemma string_app_assoc (a b c : string) :
  ((a ++ b) ++ c)%string = (a ++ (b ++ c))%string.
Proof. induction a as [|x a IH]; simpl; [reflexivity|]. now rewrite IH. Qed.

Lemma path_join_abs a b : is_abs b = true -> path_join a b = b.
Proof.
  destruct b as [|c b']; simpl; [discriminate|].
  intros H. apply Ascii.eqb_eq in H. subst c. reflexivity.
Qed.

Lemma path_join_rel a b :
  is_abs b = false ->
  path_join a b =
    match a with
    | EmptyString => b
    | String _ _ =>
        if ends_with_sep a then (a ++ b)%string else (a ++ "/" ++ b)%string
    end.
Proof.
  destruct b as [|c b']; [reflexivity|]. simpl is_abs. intros H.
  unfold path_join.
  destruct c as [[] [] [] [] [] [] [] []]; try reflexivity; discriminate H.
Qed.

Lemma path_join_rel_shape a b :
  is_abs b = false ->
  exists mid, path_join a b = (a ++ mid ++ b)%string /\
              (mid = EmptyString \/ mid = "/"%string).
Proof.
  intros H. rewrite (path_join_rel a b H). destruct a as [|c a'].
  - exists EmptyString. auto.
  - destruct (ends_with_sep (String c a')).
    + exists EmptyString. auto.
    + exists "/"%string. auto.
Qed.

Lemma path_join_suffix a b : exists pre, path_join a b = (pre ++ b)%string.
Proof.
  destruct (is_abs b) eqn:H.
  - exists EmptyString. now rewrite path_join_abs.
  - destruct (path_join_rel_shape a b H) as [mid [E _]].
    exists (a ++ mid)%string. now rewrite string_app_assoc.
Qed.

Lemma truthy_some s : truthy s = true -> exists f, s = Some f /\ f <> EmptyString.
Proof.
  destruct s as [[|c f]|]; simpl; try discriminate.
  intros _. exists (String c f). split; [reflexivity|discriminate].
Qed.

Lemma gff_calls args w :
  exists idx pairs,
    filter is_gff (trace (main args w)) = [] \/
    (truthy (gffOut args) = true /\
     filter is_gff (trace (main args w)) = [gff_call args w idx pairs]).
Proof.
  assert (Hs : forall ev, is_setup ev = true -> is_gff ev = false)
    by (intros ev; destruct ev; simpl; auto; discriminate).
  unfold trace.
  destruct (main_cases args w)
    as [[_ E]|[[_ [e [_ E]]]|[[_ [_ [idx [_ E]]]]
       |[_ [_ [idx [idx' [_ [_ E]]]]]]]]]; rewrite E; cbn [fst];
    rewrite ?filter_app, (setup_filter _ _ _ Hs).
  - exists [], []. now left.
  - exists [], []. now left.
  - exists [], []. left. unfold cleanup. destruct (keeptemp args); reflexivity.
  - exists idx', (all_pairs idx'). unfold cleanup, gff_events, gff_call, gff_path.
    destruct (truthy (gffOut args)); destruct (report_unpaired (reportTIR args));
      destruct (keeptemp args); simpl; auto.
Qed.

Lemma gff_call_in args w p fl wt u sm pf :
  In (EvGffWrite p fl wt u sm pf) (trace (main args w)) ->
  truthy (gffOut args) = true /\ p = gff_path args w /\
  wt = reportTIR args /\ sm = useBowtie2 args /\ pf = prefix args /\
  (u = None <-> report_unpaired (reportTIR args) = false).
Proof.
  intros H.
  assert (Hin : In (EvGffWrite p fl wt u sm pf)
                   (filter is_gff (trace (main args w))))
    by (apply filter_In; split; auto).
  destruct (gff_calls args w) as [idx [pairs [E|[T E]]]]; rewrite E in Hin.
  - destruct Hin.
  - destruct Hin as [Hin|[]]. unfold gff_call in Hin. inversion Hin; subst.
    repeat split; auto;
      destruct (report_unpaired (reportTIR args)); congruence.
Qed.

(** X6.  The GFF3 writer is only ever called with [--gffOut] a non-empty
    string [f], on the file [os.path.join(outDir, f)].  That path always
    ends in [f]; when [f] is absolute it is [f] itself, whatever the
    output directory is; when [f] is relative it is
    [outDir] followed by [f], with a "/" in between unless [outDir] is
    empty or already ends in one. *)
Theorem gff_file_location (args : Args) (w : World) p fl wt u sm pf :
  In (EvGffWrite p fl wt u sm pf) (trace (main args w)) ->
  exists f,
    gffOut args = Some f /\ f <> EmptyString /\
    p = path_join (checked_outDir w) f /\
    (exists pre, p = (pre ++ f)%string) /\
    (is_abs f = true -> p = f) /\
    (is_abs f = false ->
     exists mid, p = (checked_outDir w ++ mid ++ f)%string /\
                 (mid = EmptyString \/ mid = "/"%string)).
Proof.
  intros H. apply gff_call_in in H. destruct H as [T [-> _]].
  destruct (truthy_some _ T) as [f [E Hne]].
  exists f. unfold gff_path. rewrite E. repeat split; auto.
  - apply path_join_suffix.
  - apply path_join_abs.
  - apply path_join_rel_shape.
Qed.

(** ** The tool check *)

Lemma missing_tools_in args w t :
  In t (missing_tools args w) <->
  In t (required_tools args) /\ on_path w t = false.
Proof.
  rewrite missing_tools_filter, filter_In.
  split; intros [H1 H2]; split; auto.
  - now apply negb_true_iff in H2.
  - now rewrite H2.
Qed.

Lemma missing_tools_none args w :
  missing_tools args w = [] <->
  forall t, In t (required_tools args) -> on_path w t = true.
Proof.
  rewrite missing_tools_filter, filter_nil. split; intros H t Ht.
  - specialize (H t Ht). now apply negb_false_iff in H.
  - now rewrite (H t Ht).
Qed.

(** X7.  The tool check covers all seven programs in every mode: the
    warning names exactly the configured programs that are not on PATH
    (bowtie2, bowtie2-build, samtools and bedtools also in HMM mode, the
    HMMER programs also in bowtie2 mode), at most seven of them, and the
    run starts directly with [tirmite.dochecks] exactly when none is
    missing. *)
Theorem tool_warning_iff (args : Args) (w : World) :
  (forall t, In t (missing_tools args w) <->
             In t (required_tools args) /\ on_path w t = false) /\
  List.length (missing_tools args w) <= 7 /\
  (hd_error (trace (main args w)) = Some (EvDoChecks args) <->
   forall t, In t (required_tools args) -> on_path w t = true) /\
  (nonempty (missing_tools args w) = true ->
   hd_error (trace (main args w)) =
     Some (EvPrint ("WARNING: Some tools required by tirmite could not be found: "
                    ++ String.concat ", " (missing_tools args w)))).
Proof.
  split; [apply missing_tools_in|]. split.
  - rewrite missing_tools_filter.
    apply (Nat.le_trans _ _ _ (filter_length_le _ _)). reflexivity.
  - rewrite <- missing_tools_none. unfold trace.
    rewrite (main_after_tools args w). cbn [fst].
    destruct (main_calls_dochecks args w) as [rest ->].
    unfold tool_warning. destruct (missing_tools args w) as [|t l]; simpl.
    + split; [|discriminate]. split; auto.
    + split; [|reflexivity]. split; intros H; discriminate H.
Qed.

(** ** The calls of candidate search and pairing *)

(** X9.  Candidate search and the pairing engine are each called exactly
    once, in this order, when hits were found, the hit table was accepted
    and [--nopairing] is unset, and not at all otherwise.  [--maxdist]
    and [--stableReps] reach them exactly as parsed: [main] checks
    neither, so an unset distance and a negative value go through
    unchanged. *)
Theorem engine_calls (args : Args) (w : World) :
  filter is_engine_call (trace (main args w)) =
    if completes args w
    then [EvParseHits (maxdist args); EvIterateGetPairs (stableReps args)]
    else [].
Proof.
  unfold trace, completes.
  assert (Hs : forall ev, is_setup ev = true -> is_engine_call ev = false)
    by (intros ev; destruct ev; simpl; auto; discriminate).
  destruct (main_cases args w)
    as [[Hf E]|[[Hf [e [Ht E]]]|[[Hf [Hn [idx [Ht E]]]]
       |[Hf [Hn [idx [idx' [Ht [Hr E]]]]]]]]]; rewrite E, Hf; cbn [fst];
    rewrite ?filter_app, (setup_filter _ _ _ Hs).
  - reflexivity.
  - now rewrite (table_accepted_inl _ _ _ Ht).
  - rewrite Hn, (table_accepted_inr _ _ _ Ht). unfold cleanup.
    destruct (keeptemp args); reflexivity.
  - rewrite Hn, (table_accepted_inr _ _ _ Ht). unfold cleanup, gff_events.
    destruct (truthy (gffOut args)); destruct (report_unpaired (reportTIR args));
      destruct (keeptemp args); reflexivity.
Qed.

(** ** These statements at concrete inputs *)


Lemma no_hits_message_iff_witness :
  (useBowtie2 sample_args = false /\ tab_files world_without_hits = [] /\
   In (EvPrint (no_hits_message world_without_hits))
      (trace (main sample_args world_without_hits))) /\
  (hits_found sample_args world_with_empty_results = true /\
   hit_table sample_args world_with_empty_results = [] /\
   In (EvTable2dict []) (trace (main sample_args world_with_empty_results))).
Proof.
  split.
  - split; [reflexivity|]. split; [reflexivity|].
    apply (proj2 (proj1 (no_hits_message_iff sample_args world_without_hits))).
    split; reflexivity.
  - split; [reflexivity|]. split; [reflexivity|].
    apply (proj2 (no_hits_message_iff sample_args world_with_empty_results)).
    reflexivity.
Defined.

Lemma gff_file_location_witness :
  In (gff_call args_bowtie world_with_hits sample_final [sample_pair])
     (trace (main args_bowtie world_with_hits)) /\
  exists f,
    gffOut args_bowtie = Some f /\ f <> EmptyString /\
    "/data/tirs.gff3"%string = path_join (checked_outDir world_with_hits) f /\
    (exists pre, "/data/tirs.gff3"%string = (pre ++ f)%string) /\
    (is_abs f = true -> "/data/tirs.gff3"%string = f) /\
    (is_abs f = false ->
     exists mid,
       "/data/tirs.gff3"%string =
         (checked_outDir world_with_hits ++ mid ++ f)%string /\
       (mid = EmptyString \/ mid = "/"%string)).
Proof.
  assert (H : In (gff_call args_bowtie world_with_hits sample_final [sample_pair])
                 (trace (main args_bowtie world_with_hits))).
  { repeat (first [left; reflexivity | right]). }
  split; [exact H|].
  exact (gff_file_location args_bowtie world_with_hits _ _ _ _ _ _ H).
Defined.

Lemma tool_warning_iff_witness :
  nonempty (missing_tools sample_args world_missing_tools) = true /\
  hd_error (trace (main sample_args world_missing_tools)) =
    Some (EvPrint "WARNING: Some tools required by tirmite could not be found: bowtie2, samtools").
Proof.
  split; [reflexivity|].
  apply (proj2 (proj2 (proj2 (tool_warning_iff sample_args world_missing_tools)))).
  reflexivity.
Defined.
